(** * opensourcer: the deployment lifecycle manager

    A shallow embedding of the Go package [internal]: the service file
    (the [Service], the command handlers, the deployment store and
    [generatePassword]), docker.go and types.go, with the properties of
    the specification that are settled on it.

    Conventions of the embedding:
    - Go [string] is [string] (a sequence of bytes), [int] is [Z]
      (no arithmetic of the modelled code gets near the 64-bit bounds),
      [[]byte] is [list byte], [time.Time] is an instant in [Z].
    - Go maps are [gmap]s.  A [range] over a map visits the entries in an
      order chosen by the runtime at every loop; the order is an explicit
      [seed] argument of every function that ranges over a map, and
      [go_range] turns seed and map into the visiting order.  Every
      permutation of the entries is the order of some seed
      ([go_range_complete]).
    - What the process does to the outside (files, directories, external
      commands) is state passing over [World]; what the outside answers
      (command results, I/O errors, the text of a fresh identifier, clock
      readings, what a failed removal left) is an explicit argument of
      the operation that asks.
    - The program serves one request per process (main.go): [NewService]
      loads the store from the state file, one handler runs, the process
      ends.  A sequence of requests is a sequence of such runs over the
      outside ([runs]); the list in memory does not outlive its run.
    - Library functions whose behaviour is not fixed by this package
      (Unicode case mapping, path cleaning, the JSON codec, the failure
      mode of [crypto/rand.Read]) are fields of the class [GoRuntime];
      [JSON] is the text [encoding/json] writes for the state file. *)

From Stdlib Require Import ZArith NArith String Ascii List Bool Lia DecimalString.
From Stdlib.Strings Require Import Byte.
From stdpp Require Import base option list gmap sets strings fin_maps.

Local Open Scope string_scope.
Local Open Scope Z_scope.

(** ** Outcomes of a call *)

(** A Go call returns, panics, or the process is terminated under it. *)
Inductive outcome (A : Type) : Type :=
| Done (a : A)
| Panicked
| Aborted.
Arguments Done {A} a.
Arguments Panicked {A}.
Arguments Aborted {A}.

(** ** Strings and bytes *)

Module GoString.

Definition dquote : ascii := ascii_of_nat 34.
Definition squote : ascii := ascii_of_nat 39.

(** [strings.Contains(s, substr)] *)
Fixpoint Contains (s substr : string) : bool :=
  String.prefix substr s ||
  match s with
  | EmptyString => false
  | String _ r => Contains r substr
  end.

(** [strings.ReplaceAll(s, old, new)] for one-byte [old] and [new]. *)
Fixpoint ReplaceAll1 (s : string) (old new : ascii) : string :=
  match s with
  | EmptyString => EmptyString
  | String c r =>
      String (if Ascii.eqb c old then new else c) (ReplaceAll1 r old new)
  end.

Definition is_lower (c : ascii) : bool :=
  (97 <=? nat_of_ascii c)%nat && (nat_of_ascii c <=? 122)%nat.

Definition upper_byte (c : ascii) : ascii :=
  if is_lower c then ascii_of_nat (nat_of_ascii c - 32) else c.

Fixpoint isASCII (s : string) : bool :=
  match s with
  | EmptyString => true
  | String c r => (nat_of_ascii c <? 128)%nat && isASCII r
  end.

Fixpoint map_bytes (f : ascii -> ascii) (s : string) : string :=
  match s with
  | EmptyString => EmptyString
  | String c r => String (f c) (map_bytes f r)
  end.

Fixpoint all_chars (p : ascii -> bool) (s : string) : bool :=
  match s with
  | EmptyString => true
  | String c r => p c && all_chars p r
  end.

(** [s[:n]]: panics when [n] is negative or beyond the length. *)
Definition slice_to (s : string) (n : Z) : outcome string :=
  if (n <? 0) || (Z.of_nat (String.length s) <? n)
  then Panicked
  else Done (String.substring 0 (Z.to_nat n) s).

End GoString.

(** ** encoding/hex *)

Module Hex.

Definition hextable : string := "0123456789abcdef".

Definition digit (n : N) : ascii :=
  match String.get (N.to_nat n) hextable with
  | Some c => c
  | None => "0"%char
  end.

(** [hex.EncodeToString]: [hextable[v>>4]], [hextable[v&0x0f]] for every byte. *)
Fixpoint EncodeToString (src : list byte) : string :=
  match src with
  | [] => EmptyString
  | v :: r =>
      String (digit (N.shiftr (Byte.to_N v) 4))
        (String (digit (N.land (Byte.to_N v) 15)) (EncodeToString r))
  end.

Definition is_lower_hex (c : ascii) : bool :=
  let n := nat_of_ascii c in
  ((48 <=? n)%nat && (n <=? 57)%nat) || ((97 <=? n)%nat && (n <=? 102)%nat).

Definition is_upper_hex (c : ascii) : bool :=
  let n := nat_of_ascii c in
  ((48 <=? n)%nat && (n <=? 57)%nat) || ((65 <=? n)%nat && (n <=? 70)%nat).

End Hex.

(** ** Map iteration order *)

Section Range.
Context {A : Type}.

Fixpoint insert_at (i : nat) (x : A) (l : list A) : list A :=
  match i, l with
  | O, _ => x :: l
  | S _, [] => [x]
  | S j, y :: r => y :: insert_at j x r
  end.

(** The order a seed gives to a list of entries: the entry at the head
    is put at the seed's position among the ordered rest. *)
Fixpoint permute (seed : list nat) (l : list A) : list A :=
  match l with
  | [] => []
  | x :: r =>
      match seed with
      | [] => x :: permute [] r
      | i :: seed' => insert_at i x (permute seed' r)
      end
  end.

End Range.

(** The entries of a map in the order of one [range] loop. *)
Definition go_range {V} (seed : list nat) (m : gmap string V) : list (string * V) :=
  permute seed (map_to_list m).

(** ** Data model (types.go) *)

Definition Time : Type := Z.

Record InputConfig := {
  ic_Label : string;
  ic_Placeholder : string;
  ic_Required : bool;
  ic_Type : string;
  ic_Description : string;
  ic_Default : string;
}.

Record ServiceInfo := {
  si_Exposed : bool;
  si_Stateless : bool;
  si_Internal : bool;
  si_ManagedOption : string;
}.

(** A nil map and an empty map behave alike in all the modelled code
    (lookups miss, [range] visits nothing): both are [∅]. *)
Record CatalogDetail := {
  cd_Name : string;
  cd_Description : string;
  cd_Website : string;
  cd_Icon : string;
  cd_Category : string;
  cd_Tags : list string;
  cd_Inputs : gmap string InputConfig;
  cd_Services : gmap string ServiceInfo;
}.

Record LocalDeployment := {
  ld_ID : string;
  ld_Software : string;
  ld_Target : string;
  ld_Status : string;
  ld_Directory : string;
  ld_Port : Z;
  ld_Inputs : gmap string string;
  ld_CreatedAt : Time;
  ld_UpdatedAt : Time;
}.

Record DeploymentsFile := {
  df_Deployments : list LocalDeployment;
}.

Global Instance LocalDeployment_eq_dec : EqDecision LocalDeployment.
Proof. solve_decision. Defined.

(** [Service] of the package: the two paths and the in-memory store. *)
Record Service := {
  configPath : string;
  catalogPath : string;
  deployments : list LocalDeployment;
}.

Definition set_deployments (ds : list LocalDeployment) (s : Service) : Service :=
  {| configPath := configPath s; catalogPath := catalogPath s; deployments := ds |}.

(** ** Library behaviour the package relies on *)

Class GoRuntime := {
  (** [strings.Map(unicode.ToUpper, s)], the path of [strings.ToUpper]
      for strings with a byte outside ASCII. *)
  unicode_ToUpper : string -> string;
  (** [filepath.Join] *)
  filepath_Join : list string -> string;
  (** [json.MarshalIndent(file, "", "  ")]; [None] is an error. *)
  json_MarshalIndent : DeploymentsFile -> option string;
  (** [json.Unmarshal(data, &file)] into a zero [file]; [None] is an error. *)
  json_Unmarshal : string -> option DeploymentsFile;
  (** Whether [crypto/rand.Read] terminates the process when the secure
      source fails (Go 1.24 and later) or returns the error of the
      read (earlier toolchains). *)
  rand_Read_aborts : bool;
}.

(** ** The outside of the process *)

Inductive Event :=
| EvExec (argv : list string) (dir : string) (env : list string)
| EvMkdirAll (path : string)
| EvWriteFile (path data : string)
| EvRemoveAll (path : string).

Record World := {
  files : gmap string string;   (** files of the configuration directory, by path *)
  dirs : gset string;           (** directories made by the package that exist *)
  log : list Event;             (** what the process did to the outside, oldest first *)
  entropy : list byte;          (** what the secure random source still delivers *)
}.

Record State := {
  svc : Service;
  world : World;
}.

Definition set_svc (s : Service) (st : State) : State :=
  {| svc := s; world := world st |}.
Definition set_world (w : World) (st : State) : State :=
  {| svc := svc st; world := w |}.
Definition set_files (f : gmap string string) (w : World) : World :=
  {| files := f; dirs := dirs w; log := log w; entropy := entropy w |}.
Definition set_dirs (d : gset string) (w : World) : World :=
  {| files := files w; dirs := d; log := log w; entropy := entropy w |}.
Definition set_entropy (e : list byte) (w : World) : World :=
  {| files := files w; dirs := dirs w; log := log w; entropy := e |}.
Definition emit (e : Event) (w : World) : World :=
  {| files := files w; dirs := dirs w; log := (log w ++ [e])%list; entropy := entropy w |}.

(** ** Two state monads: over the random source, over the whole state *)

Definition Rand (A : Type) : Type := list byte -> outcome (A * list byte).
Definition M (A : Type) : Type := State -> outcome (A * State).

Global Instance Rand_ret : MRet Rand := fun A a src => Done (a, src).
Global Instance Rand_bind : MBind Rand := fun A B k m src =>
  match m src with
  | Done (a, src') => k a src'
  | Panicked => Panicked
  | Aborted => Aborted
  end.

Global Instance M_ret : MRet M := fun A a st => Done (a, st).
Global Instance M_bind : MBind M := fun A B k m st =>
  match m st with
  | Done (a, st') => k a st'
  | Panicked => Panicked
  | Aborted => Aborted
  end.

Definition rand_lift {A} (o : outcome A) : Rand A := fun src =>
  match o with
  | Done a => Done (a, src)
  | Panicked => Panicked
  | Aborted => Aborted
  end.

(** Run a computation over the random source on the source of the world. *)
Definition with_entropy {A} (m : Rand A) : M A := fun st =>
  match m (entropy (world st)) with
  | Done (a, src') => Done (a, set_world (set_entropy src' (world st)) st)
  | Panicked => Panicked
  | Aborted => Aborted
  end.

Definition get_svc : M Service := fun st => Done (svc st, st).
Definition put_svc (s : Service) : M unit := fun st => Done (tt, set_svc s st).
Definition panic {A} : M A := fun _ => Panicked.

(** Calls that touch the outside only are state passing over [World];
    [outside] runs one in the process. *)
Definition IO (A : Type) : Type := World -> A * World.

Global Instance IO_ret : MRet IO := fun A a w => (a, w).
Global Instance IO_bind : MBind IO := fun A B k m w =>
  let (a, w') := m w in k a w'.

Definition outside {A} (m : IO A) : M A := fun st =>
  let (a, w) := m (world st) in Done (a, set_world w st).

(** ** Calls to the outside *)

(** An answer of the outside that carries a value: the value, or the
    text of the error. *)
Inductive answer (A : Type) : Type :=
| Fine (a : A)
| Failed (err : string).
Arguments Fine {A} a.
Arguments Failed {A} err.

(** The answer to an external command: the error of [cmd.Run] (none on
    success), what it wrote to standard error, and its combined output. *)
Record ExecResult := {
  exec_err : option string;
  exec_stderr : string;
  exec_output : string;
}.

(** Whether [p] lies in the tree rooted at [root].  Files and
    directories are known by the path the package used for them, as
    [filepath.Join] made it: two spellings of one path are two names. *)
Definition under (root p : string) : bool :=
  String.eqb p root || String.prefix (root ++ "/") p.

(** What is left of a tree when [os.RemoveAll] fails: the error, and
    which paths of the tree were not removed. *)
Record RemoveFailure := {
  rf_err : string;
  rf_kept : string -> bool;
}.

(** [endsWithDot] of package [os]: the path is [.] or its last element
    is [.]. *)
Definition endsWithDot (path : string) : bool :=
  String.eqb path "." ||
  ((2 <=? String.length path)%nat &&
   String.eqb (String.substring (String.length path - 2) 2 path) "/.").

Module OS.

(** [cmd.Run()] / [cmd.CombinedOutput()] of [exec.Command(argv...)]. *)
Definition Run (result : ExecResult) (argv : list string) (dir : string)
    (env : list string) : IO ExecResult := fun w =>
  (result, emit (EvExec argv dir env) w).

(** [os.MkdirAll]: [err] is the error, none on success. *)
Definition MkdirAll (err : option string) (path : string) : IO (option string) :=
  fun w =>
    let w := emit (EvMkdirAll path) w in
    (err, match err with
          | None => set_dirs ({[path]} ∪ dirs w) w
          | Some _ => w
          end).

(** [os.RemoveAll]: for the empty path nothing is done and no error is
    returned, and a path that ends in a dot is refused; otherwise the
    path and everything under it, files and directories, is removed, all
    of it when the call succeeds and what could be removed when it fails,
    with the first error met. *)
Definition RemoveAll (failure : option RemoveFailure) (path : string)
    : IO (option string) :=
  fun w =>
    let w := emit (EvRemoveAll path) w in
    if String.eqb path "" then (None, w)
    else if endsWithDot path then (Some ("RemoveAll " ++ path ++ ": invalid argument"), w)
    else
      let gone (p : string) : bool :=
        under path p &&
        match failure with
        | None => true
        | Some f => negb (rf_kept f p)
        end in
      (rf_err <$> failure,
       set_dirs (filter (λ p, gone p = false) (dirs w))
         (set_files (filter (λ kv, gone kv.1 = false) (files w)) w)).

(** [os.ReadFile] of a file of the package: a file that is not there,
    or not readable, is an error. *)
Definition ReadFile (path : string) : IO (option string) := fun w =>
  (files w !! path, w).

(** [os.WriteFile] *)
Definition WriteFile (err : option string) (path data : string)
    : IO (option string) := fun w =>
  let w := emit (EvWriteFile path data) w in
  (err, match err with
        | None => set_files (<[path := data]> (files w)) w
        | Some _ => w
        end).

End OS.

Definition exec_Run (result : ExecResult) (argv : list string) (dir : string)
    (env : list string) : M ExecResult :=
  outside (OS.Run result argv dir env).
Definition os_MkdirAll (err : option string) (path : string) : M (option string) :=
  outside (OS.MkdirAll err path).
Definition os_RemoveAll (failure : option RemoveFailure) (path : string)
    : M (option string) :=
  outside (OS.RemoveAll failure path).
Definition os_ReadFile (path : string) : M (option string) :=
  outside (OS.ReadFile path).
Definition os_WriteFile (err : option string) (path data : string)
    : M (option string) :=
  outside (OS.WriteFile err path data).

(** What [os.ReadDir] and the reads and writes under it answer when a
    directory of the catalog is copied: for a file its name, the answer
    to the read and the error of the write; for a directory its name, the
    error of the [MkdirAll] and the answer to its own [os.ReadDir]. *)
#[warnings="-register-all"]
Inductive DirEntry :=
| EntryFile (name : string) (read : answer string) (write_err : option string)
| EntryDir (name : string) (mkdir_err : option string)
    (listing : answer (list DirEntry)).

Section Package.
Context `{rt : GoRuntime}.

(** [strings.ToUpper] *)
Definition ToUpper (s : string) : string :=
  if GoString.isASCII s
  then GoString.map_bytes GoString.upper_byte s
  else unicode_ToUpper s.

(** [make([]byte, n)] *)
Definition make_bytes (n : Z) : outcome (list byte) :=
  if n <? 0 then Panicked else Done (replicate (Z.to_nat n) x00).

(** [rand.Read(b)]: the buffer after the call, and the [(n, err)] it
    returns.  A source that runs short fills what it has. *)
Definition rand_Read (b : list byte) : Rand (list byte * Z * option string) :=
  fun src =>
    let n := List.length b in
    if (n <=? List.length src)%nat
    then Done ((take n src, Z.of_nat n, None), drop n src)
    else if rand_Read_aborts
    then Aborted
    else Done (((src ++ drop (List.length src) b)%list, Z.of_nat (List.length src),
                Some "crypto/rand: failed to read random data"), []).

(** [generatePassword]: the results of [rand.Read] are dropped. *)
Definition generatePassword (length : Z) : Rand string :=
  bytes ← rand_lift (make_bytes (length ÷ 2 + 1));
  '(bytes, _, _) ← rand_Read bytes;
  s ← rand_lift (GoString.slice_to (Hex.EncodeToString bytes) length);
  mret (ToUpper s).

(** *** docker.go: environment synthesis and port detection *)

Definition keyMapping : gmap string string :=
  list_to_map [
    ("domain", "DOMAIN");
    ("timezone", "TIMEZONE");
    ("basic_auth_user", "BASIC_AUTH_USER");
    ("basic_auth_password", "BASIC_AUTH_PASSWORD");
    ("admin_user", "ADMIN_USER");
    ("admin_password", "ADMIN_PASSWORD");
    ("admin_email", "ADMIN_EMAIL");
    ("site_title", "SITE_TITLE")
  ].

(** The environment-variable name of an input key, as both loops of
    [prepareEnvVars] compute it. *)
Definition envKeyOf (key : string) : string :=
  let envKey := ToUpper (GoString.ReplaceAll1 key "-" "_") in
  match keyMapping !! key with
  | Some mapped => mapped
  | None => envKey
  end.

(** First loop of [prepareEnvVars]: apply user inputs. *)
Fixpoint apply_inputs (entries : list (string * string))
    (envVars : gmap string string) : gmap string string :=
  match entries with
  | [] => envVars
  | (key, value) :: rest =>
      if String.eqb value ""
      then apply_inputs rest envVars
      else apply_inputs rest (<[envKeyOf key := value]> envVars)
  end.

(** Second loop: generate passwords for declared inputs still unset. *)
Fixpoint generate_missing (entries : list (string * InputConfig))
    (envVars : gmap string string) : Rand (gmap string string) :=
  match entries with
  | [] => mret envVars
  | (key, input) :: rest =>
      let envKey := envKeyOf key in
      match envVars !! envKey with
      | None =>
          if String.eqb (ic_Type input) "password"
          then p ← generatePassword 12;
               generate_missing rest (<[envKey := p]> envVars)
          else generate_missing rest envVars
      | Some _ => generate_missing rest envVars
      end
  end.

Definition prepareEnvVars (seed_inputs seed_detail : list nat)
    (detail : CatalogDetail) (inputs : gmap string string)
    : Rand (gmap string string) :=
  db ← generatePassword 16;
  admin ← generatePassword 12;
  secret ← generatePassword 48;
  let envVars : gmap string string :=
    <["SECRET_KEY" := secret]>
      (<["ADMIN_PASSWORD" := admin]> (<["DB_PASSWORD" := db]> ∅)) in
  let envVars := apply_inputs (go_range seed_inputs inputs) envVars in
  envVars ← generate_missing (go_range seed_detail (cd_Inputs detail)) envVars;
  mret (match envVars !! "DOMAIN" with
        | Some _ => envVars
        | None => <["DOMAIN" := "localhost"]> envVars
        end).

Definition newline : string := String (ascii_of_nat 10) "".

Definition env_line (kv : string * string) : string :=
  kv.1 ++ "=" ++ kv.2.

Definition buildEnvFile (seed : list nat) (envVars : gmap string string) : string :=
  String.concat newline (env_line <$> go_range seed envVars).

Definition envVarsToSlice (seed : list nat) (envVars : gmap string string)
    : list string :=
  env_line <$> go_range seed envVars.

Definition portMap : gmap string Z :=
  list_to_map [
    ("2368", 2368);
    ("3000", 3000);
    ("3001", 3001);
    ("5678", 5678);
    ("8000", 8000);
    ("8065", 8065);
    ("8080", 8080);
    ("8096", 8096);
    ("80", 80)
  ].

(** The two patterns tested for one port of the table. *)
Definition port_pattern_dq (port : string) : string :=
  "- " ++ String GoString.dquote (port ++ ":").
Definition port_pattern_sq (port : string) : string :=
  "- " ++ String GoString.squote (port ++ ":").

Definition port_occurs (composeContent port : string) : bool :=
  GoString.Contains composeContent (port_pattern_dq port) ||
  GoString.Contains composeContent (port_pattern_sq port).

(** The loop of [findExposedPort] over the entries in visiting order. *)
Fixpoint scan_ports (entries : list (string * Z)) (composeContent : string) : Z :=
  match entries with
  | [] => 0
  | (port, portNum) :: rest =>
      if port_occurs composeContent port
      then portNum
      else scan_ports rest composeContent
  end.

Definition findExposedPort (seed : list nat) (composeContent : string) : Z :=
  scan_ports (go_range seed portMap) composeContent.

(** *** docker.go: copying the catalog entry *)

(** One turn of the loop of [copyDir]; for a directory the recursive
    call runs the same loop on the listing of the directory. *)
Fixpoint copy_entry (src dst : string) (entry : DirEntry) : IO (option string) :=
  match entry with
  | EntryFile name read write_err =>
      let dstPath := filepath_Join [dst; name] in
      match read with
      | Failed err => mret (Some err)
      | Fine data => OS.WriteFile write_err dstPath data
      end
  | EntryDir name mkdir_err listing =>
      let srcPath := filepath_Join [src; name] in
      let dstPath := filepath_Join [dst; name] in
      err ← OS.MkdirAll mkdir_err dstPath;
      match err with
      | Some e => mret (Some e)
      | None =>
          match listing with
          | Failed e => mret (Some e)
          | Fine entries =>
              (fix copy_all (entries : list DirEntry) : IO (option string) :=
                 match entries with
                 | [] => mret None
                 | entry :: rest =>
                     err ← copy_entry srcPath dstPath entry;
                     match err with
                     | Some e => mret (Some e)
                     | None => copy_all rest
                     end
                 end) entries
          end
      end
  end.

Fixpoint copy_entries (src dst : string) (entries : list DirEntry)
    : IO (option string) :=
  match entries with
  | [] => mret None
  | entry :: rest =>
      err ← copy_entry src dst entry;
      match err with
      | Some e => mret (Some e)
      | None => copy_entries src dst rest
      end
  end.

(** [copyDir]: [listing] is the answer to [os.ReadDir(src)]. *)
Definition copyDir (listing : answer (list DirEntry)) (src dst : string)
    : IO (option string) :=
  match listing with
  | Failed err => mret (Some err)
  | Fine entries => copy_entries src dst entries
  end.

(** *** The deployment store *)

Definition deployFile (s : Service) : string :=
  filepath_Join [configPath s; "deployments.json"].

Definition loadDeployments : M unit :=
  s ← get_svc;
  data ← os_ReadFile (deployFile s);
  match data with
  | None => mret tt
  | Some data =>
      match json_Unmarshal data with
      | None => mret tt
      | Some file => put_svc (set_deployments (df_Deployments file) s)
      end
  end.

(** [saveDeployments]: both errors are dropped; after a failed
    [MarshalIndent] the data written is empty. *)
Definition saveDeployments (write_answer : option string) : M unit :=
  s ← get_svc;
  let file := {| df_Deployments := deployments s |} in
  let data := default "" (json_MarshalIndent file) in
  _ ← os_WriteFile write_answer (deployFile s) data;
  mret tt.

Definition addDeployment (write_answer : option string) (d : LocalDeployment)
    : M unit :=
  s ← get_svc;
  _ ← put_svc (set_deployments (deployments s ++ [d])%list s);
  saveDeployments write_answer.

(** [findDeployment]: the pointer [&s.deployments[i]] is the index [i]. *)
Definition findDeployment (software : string) : M (option nat) :=
  s ← get_svc;
  mret (fst <$> list_find (λ d, ld_Software d = software) (deployments s)).

(** Reading through a pointer into the store. *)
Definition deref (p : nat) : M LocalDeployment :=
  s ← get_svc;
  match deployments s !! p with
  | Some d => mret d
  | None => panic
  end.

Definition set_status (status : string) (now : Time) (d : LocalDeployment)
    : LocalDeployment :=
  {| ld_ID := ld_ID d; ld_Software := ld_Software d; ld_Target := ld_Target d;
     ld_Status := status; ld_Directory := ld_Directory d; ld_Port := ld_Port d;
     ld_Inputs := ld_Inputs d; ld_CreatedAt := ld_CreatedAt d;
     ld_UpdatedAt := now |}.

Definition updateDeploymentStatus (now : Time) (write_answer : option string)
    (id status : string) : M unit :=
  s ← get_svc;
  match list_find (λ d, ld_ID d = id) (deployments s) with
  | Some (i, _) =>
      _ ← put_svc (set_deployments (alter (set_status status now) i (deployments s)) s);
      saveDeployments write_answer
  | None => mret tt
  end.

Definition removeDeployment (write_answer : option string) (id : string) : M unit :=
  s ← get_svc;
  match list_find (λ d, ld_ID d = id) (deployments s) with
  | Some (i, _) =>
      _ ← put_svc (set_deployments
                     (take i (deployments s) ++ drop (S i) (deployments s))%list s);
      saveDeployments write_answer
  | None => mret tt
  end.

(** [NewService]: the home directory and the answer to the [MkdirAll]
    of the configuration directory come from the outside. *)
Definition NewService (homeDir : string) (mkdir_answer : option string)
    (w : World) : outcome (unit * State) :=
  let configPath := filepath_Join [homeDir; ".opensourcer"] in
  let catalogPath := filepath_Join [configPath; "catalog"] in
  let s := {| configPath := configPath; catalogPath := catalogPath;
              deployments := [] |} in
  (_ ← os_MkdirAll mkdir_answer configPath; loadDeployments)
    {| svc := s; world := w |}.

(** *** docker.go: the lifecycle operations *)

(** What a handler returns: a value (possibly nil) or an error. *)
Inductive result :=
| Ok (out : string)
| OkNil
| Err (msg : string).

Definition itoa (n : Z) : string := NilZero.string_of_int (Z.to_int n).

Fixpoint Repeat (s : string) (count : nat) : string :=
  match count with
  | O => ""
  | S k => s ++ Repeat s k
  end.

Definition nl : string := newline.

(** Answers of the outside to one [deployLocal]. *)
Record DeployIO := {
  dio_probe : ExecResult;            (** [docker info] *)
  dio_mkdir : option string;         (** [MkdirAll] of the deployment directory *)
  dio_catalog : answer (list DirEntry);
                                     (** [os.ReadDir] of the catalog entry, for [copyDir] *)
  dio_env_write : option string;     (** [WriteFile] of [.env] *)
  dio_environ : list string;         (** [os.Environ()] *)
  dio_up : ExecResult;               (** [docker compose up -d] *)
  dio_uuid : string;                 (** [uuid.New().String()], when [uuid.New] returns *)
  dio_created : Time;                (** first [time.Now()] *)
  dio_updated : Time;                (** second [time.Now()] *)
  dio_save : option string;          (** [WriteFile] of the state file *)
  dio_seed_inputs : list nat;        (** visiting orders of the five [range] loops *)
  dio_seed_detail : list nat;
  dio_seed_envfile : list nat;
  dio_seed_envslice : list nat;
  dio_seed_ports : list nat;
}.

(** [uuid.New()] of [github.com/google/uuid], which is [Must(NewRandom())]:
    sixteen bytes are read from the secure source, and [Must] panics
    with the error of the read; [text] is what [String()] gives for the
    identifier made of the bytes. *)
Definition uuid_New (text : string) : Rand string :=
  bytes ← rand_lift (make_bytes 16);
  '(_, _, err) ← rand_Read bytes;
  match err with
  | Some _ => rand_lift Panicked
  | None => mret text
  end.

Definition checkDockerAvailable (answer : ExecResult) : M (option string) :=
  r ← exec_Run answer ["docker"; "info"] "" [];
  match exec_err r with
  | Some _ => mret (Some "docker is not running or not installed")
  | None => mret None
  end.

Definition deployLocal (io : DeployIO) (software : string)
    (detail : CatalogDetail) (inputs : gmap string string) : M result :=
  err ← checkDockerAvailable (dio_probe io);
  match err with
  | Some e => mret (Err ("docker is required for local deployment: " ++ e))
  | None =>
  s ← get_svc;
  let deployDir := filepath_Join [configPath s; "deployments"; software] in
  err ← os_MkdirAll (dio_mkdir io) deployDir;
  match err with
  | Some e => mret (Err ("failed to create deployment directory: " ++ e))
  | None =>
  let catalogDir := filepath_Join [catalogPath s; software] in
  err ← outside (copyDir (dio_catalog io) catalogDir deployDir);
  match err with
  | Some e => mret (Err ("failed to copy catalog files: " ++ e))
  | None =>
  let composePath := filepath_Join [deployDir; "docker-compose.yaml"] in
  composeContent ← os_ReadFile composePath;
  match composeContent with
  | None => mret (Err ("docker-compose.yaml not found for '" ++ software ++ "'"))
  | Some composeContent =>
  envVars ← with_entropy
    (prepareEnvVars (dio_seed_inputs io) (dio_seed_detail io) detail inputs);
  let envContent := buildEnvFile (dio_seed_envfile io) envVars in
  let envPath := filepath_Join [deployDir; ".env"] in
  err ← os_WriteFile (dio_env_write io) envPath envContent;
  match err with
  | Some e => mret (Err ("failed to write .env file: " ++ e))
  | None =>
  let port := findExposedPort (dio_seed_ports io) composeContent in
  let output := nl ++ "🚀 Deploying " ++ cd_Name detail ++ " locally..." ++ nl ++ nl in
  r ← exec_Run (dio_up io) ["docker"; "compose"; "-f"; composePath; "up"; "-d"]
        deployDir
        (dio_environ io ++ envVarsToSlice (dio_seed_envslice io) envVars)%list;
  match exec_err r with
  | Some _ => mret (Err ("docker compose failed: " ++ exec_stderr r))
  | None =>
  id ← with_entropy (uuid_New (dio_uuid io));
  let deployment :=
    {| ld_ID := id;
       ld_Software := software;
       ld_Target := "local";
       ld_Status := "running";
       ld_Directory := deployDir;
       ld_Port := port;
       ld_Inputs := inputs;
       ld_CreatedAt := dio_created io;
       ld_UpdatedAt := dio_updated io |} in
  _ ← addDeployment (dio_save io) deployment;
  let output := output ++ "✅ Deployment successful!" ++ nl ++ nl in
  let output := output ++ "  Software: " ++ cd_Name detail ++ nl in
  let output := output ++ "  Status: running" ++ nl in
  let output :=
    if 0 <? port
    then output ++ "  URL: http://localhost:" ++ itoa port ++ nl
    else output in
  let output := output ++ "  Directory: " ++ deployDir ++ nl in
  let output :=
    match envVars !! "DB_PASSWORD" with
    | Some pwd => output ++ nl ++ "  Generated DB Password: " ++ pwd ++ nl
    | None => output
    end in
  let output :=
    match envVars !! "ADMIN_PASSWORD" with
    | Some pwd => output ++ "  Generated Admin Password: " ++ pwd ++ nl
    | None => output
    end in
  let output :=
    match envVars !! "BASIC_AUTH_PASSWORD" with
    | Some pwd =>
        if String.eqb (default "" (inputs !! "basic_auth_password")) ""
        then output ++ "  Generated Auth Password: " ++ pwd ++ nl
        else output
    | None => output
    end in
  let output := output ++ nl ++ "Useful commands:" ++ nl in
  let output := output ++ "  opensourcer logs " ++ software ++ "    - View logs" ++ nl in
  let output := output ++ "  opensourcer stop " ++ software ++ "    - Stop deployment" ++ nl in
  let output := output ++ "  opensourcer destroy " ++ software ++ " - Remove deployment" ++ nl in
  mret (Ok output)
  end end end end end end.

Definition compose_path (d : LocalDeployment) : string :=
  filepath_Join [ld_Directory d; "docker-compose.yaml"].

Definition getDockerLogs (answer : ExecResult) (deployment : nat) : M result :=
  d ← deref deployment;
  r ← exec_Run answer
        ["docker"; "compose"; "-f"; compose_path d; "logs"; "--tail"; "100"]
        (ld_Directory d) [];
  match exec_err r with
  | Some e => mret (Err ("failed to get logs: " ++ e))
  | None =>
      mret (Ok (nl ++ "📋 Logs for " ++ ld_Software d ++ nl ++ Repeat "─" 60 ++ nl
                ++ exec_output r))
  end.

(** Answers of the outside to one [stopDocker] or [startDocker]. *)
Record StatusIO := {
  sio_run : ExecResult;              (** [docker compose stop] or [start] *)
  sio_now : Time;                    (** [time.Now()] of the status update *)
  sio_save : option string;          (** [WriteFile] of the state file *)
}.

Definition stopDocker (io : StatusIO) (deployment : nat) : M result :=
  d ← deref deployment;
  r ← exec_Run (sio_run io) ["docker"; "compose"; "-f"; compose_path d; "stop"]
        (ld_Directory d) [];
  match exec_err r with
  | Some e => mret (Err ("failed to stop containers: " ++ e))
  | None =>
      _ ← updateDeploymentStatus (sio_now io) (sio_save io) (ld_ID d) "stopped";
      d ← deref deployment;
      mret (Ok (nl ++ "⏹️  Stopped '" ++ ld_Software d ++ "'" ++ nl ++ nl
                ++ "Use 'opensourcer start " ++ ld_Software d ++ "' to restart" ++ nl))
  end.

Definition startDocker (io : StatusIO) (deployment : nat) : M result :=
  d ← deref deployment;
  r ← exec_Run (sio_run io) ["docker"; "compose"; "-f"; compose_path d; "start"]
        (ld_Directory d) [];
  match exec_err r with
  | Some e => mret (Err ("failed to start containers: " ++ e))
  | None =>
      _ ← updateDeploymentStatus (sio_now io) (sio_save io) (ld_ID d) "running";
      d ← deref deployment;
      let output := nl ++ "✅ Started '" ++ ld_Software d ++ "'" ++ nl in
      let output :=
        if 0 <? ld_Port d
        then output ++ nl ++ "  URL: http://localhost:" ++ itoa (ld_Port d) ++ nl
        else output in
      mret (Ok output)
  end.

(** Answers of the outside to one [Destroy]. *)
Record DestroyIO := {
  xio_run : ExecResult;              (** [docker compose down -v] *)
  xio_remove : option RemoveFailure; (** [RemoveAll] of the deployment directory *)
  xio_save : option string;          (** [WriteFile] of the state file *)
}.

Definition destroyDocker (io : DestroyIO) (deployment : nat) : M result :=
  d ← deref deployment;
  r ← exec_Run (xio_run io) ["docker"; "compose"; "-f"; compose_path d; "down"; "-v"]
        (ld_Directory d) [];
  match exec_err r with
  | Some e => mret (Err ("failed to destroy containers: " ++ e))
  | None =>
      _ ← os_RemoveAll (xio_remove io) (ld_Directory d);
      mret OkNil
  end.

(** *** The handlers; [software] is what [getArg] returns. *)

Definition not_found (software : string) : result :=
  Err ("deployment '" ++ software ++ "' not found").

Definition Logs (answer : ExecResult) (software : string) : M result :=
  if String.eqb software "" then mret (Err "usage: opensourcer logs <software>")
  else
    deployment ← findDeployment software;
    match deployment with
    | None => mret (not_found software)
    | Some p => getDockerLogs answer p
    end.

Definition Stop (io : StatusIO) (software : string) : M result :=
  if String.eqb software "" then mret (Err "usage: opensourcer stop <software>")
  else
    deployment ← findDeployment software;
    match deployment with
    | None => mret (not_found software)
    | Some p => stopDocker io p
    end.

Definition Start (io : StatusIO) (software : string) : M result :=
  if String.eqb software "" then mret (Err "usage: opensourcer start <software>")
  else
    deployment ← findDeployment software;
    match deployment with
    | None => mret (not_found software)
    | Some p => startDocker io p
    end.

Definition Destroy (io : DestroyIO) (software : string) : M result :=
  if String.eqb software "" then mret (Err "usage: opensourcer destroy <software>")
  else
    deployment ← findDeployment software;
    match deployment with
    | None => mret (not_found software)
    | Some p =>
        r ← destroyDocker io p;
        match r with
        | Err e => mret (Err e)
        | _ =>
            d ← deref p;
            _ ← removeDeployment (xio_save io) (ld_ID d);
            mret (Ok (nl ++ "Destroyed '" ++ software ++ "' deployment" ++ nl))
        end
    end.

(** *** Lifecycle requests *)

Inductive Op :=
| OpDeploy (io : DeployIO) (software : string) (detail : CatalogDetail)
    (inputs : gmap string string)
| OpStop (io : StatusIO) (software : string)
| OpStart (io : StatusIO) (software : string)
| OpDestroy (io : DestroyIO) (software : string)
| OpLogs (answer : ExecResult) (software : string).

Definition run_op (op : Op) : M result :=
  match op with
  | OpDeploy io software detail inputs => deployLocal io software detail inputs
  | OpStop io software => Stop io software
  | OpStart io software => Start io software
  | OpDestroy io software => Destroy io software
  | OpLogs answer software => Logs answer software
  end.

(** The states after each of the handlers when they are run one after
    the other on one service value, oldest first; a handler under which
    the process dies ends the sequence.  The program serves one request
    per process, so this is the program for a single request; sequences
    of requests are [runs] below. *)
Fixpoint states_after (ops : list Op) (st : State) : list State :=
  match ops with
  | [] => []
  | op :: rest =>
      match run_op op st with
      | Done (_, st') => st' :: states_after rest st'
      | _ => []
      end
  end.

(** Whether a slug has a record in the store. *)
Definition tracked (software : string) (st : State) : Prop :=
  is_Some (list_find (λ d, ld_Software d = software) (deployments (svc st))).

(** The records of one slug, and the store invariant of the data model. *)
Definition records_of (software : string) (ds : list LocalDeployment)
    : list LocalDeployment :=
  filter (λ d, ld_Software d = software) ds.

Definition one_per_slug (ds : list LocalDeployment) : Prop :=
  ∀ software, (length (records_of software ds) ≤ 1)%nat.

(** *** Runs of the program (main.go) *)

(** One run of the program: [main] makes the service with [NewService],
    which reads the state file, the handler of the subcommand serves one
    request, and the process ends.  What a run leaves to the next run is
    the outside, the state file in it; the list in memory is gone. *)
Record Request := {
  rq_home : string;             (** [os.UserHomeDir()] *)
  rq_mkdir : option string;     (** [MkdirAll] of the configuration directory *)
  rq_op : Op;                   (** the request the subcommand serves *)
}.

(** A run that returned: its request, the state when [NewService] had
    loaded the store, what the handler returned, and the state at the
    end of the run. *)
Record Run := {
  run_request : Request;
  run_loaded : State;
  run_result : result;
  run_final : State;
}.

(** The runs of a sequence of requests, oldest first, each starting on
    the outside as the run before it left it; a run in which the process
    dies ends the sequence considered. *)
Fixpoint runs (rqs : list Request) (w : World) : list Run :=
  match rqs with
  | [] => []
  | rq :: rest =>
      match NewService (rq_home rq) (rq_mkdir rq) w with
      | Done (_, st) =>
          match run_op (rq_op rq) st with
          | Done (r, st') =>
              {| run_request := rq; run_loaded := st; run_result := r;
                 run_final := st' |} :: runs rest (world st')
          | _ => []
          end
      | _ => []
      end
  end.

(** The slugs of a list of records, in order. *)
Definition slugs (ds : list LocalDeployment) : list string :=
  ld_Software <$> ds.

(** The run is not a deploy that returned a value for a slug that had a
    record in the store as the run loaded it: what a caller that turns
    such requests down ensures. *)
Definition no_second_record (r : Run) : Prop :=
  match rq_op (run_request r), run_result r with
  | OpDeploy _ software _ _, Ok _ => ¬ tracked software (run_loaded r)
  | _, _ => True
  end.

(** What the run [next] loaded is, slug for slug, what the run [r]
    before it left in memory (its last write of the state file was read
    back), what [r] itself had loaded (no write of [r] reached the state
    file), or nothing (the state file is gone or is no document). *)
Definition hands_over (r next : Run) : Prop :=
  slugs (deployments (svc (run_loaded next))) = slugs (deployments (svc (run_final r))) ∨
  slugs (deployments (svc (run_loaded next))) = slugs (deployments (svc (run_loaded r))) ∨
  deployments (svc (run_loaded next)) = [].

Fixpoint handed_over (rs : list Run) : Prop :=
  match rs with
  | r :: rest =>
      match rest with
      | next :: _ => hands_over r next
      | [] => True
      end ∧ handed_over rest
  | [] => True
  end.

(** The store the first run loaded has at most one record per slug. *)
Definition starts_one_per_slug (rs : list Run) : Prop :=
  match rs with
  | r :: _ => one_per_slug (deployments (svc (run_loaded r)))
  | [] => True
  end.

(** Each run found and left at most one record per slug. *)
Definition run_one_per_slug (r : Run) : Prop :=
  one_per_slug (deployments (svc (run_loaded r))) ∧
  one_per_slug (deployments (svc (run_final r))).

End Package.

(** ** The service file: arguments, the deploy handler, the list handler *)

(** Library behaviour used by the handlers of this part. *)
Class GoText := {
  (** [json.Unmarshal(data, &detail)] into a zero [CatalogDetail];
      [None] is an error. *)
  json_Unmarshal_detail : string -> option CatalogDetail;
  (** What [fmt] writes for the verb [%-Ns]: the string, padded on the
      right with spaces up to [N] runes. *)
  fmt_pad_right : nat -> string -> string;
  (** [t.Format(layout)] *)
  time_Format : string -> Time -> string;
}.

(** [getArg]: [args] is [os.Args]. *)
Definition getArg (args : list string) : string :=
  if (3 <=? length args)%nat
  then
    let arg := default "" (args !! 2%nat) in
    if negb (String.prefix "-" arg) then arg else ""
  else "".

Section Handlers.
Context `{rt : GoRuntime} `{tx : GoText}.

(** [getCatalogDetail]: the definition of a slug, or the error. *)
Definition getCatalogDetail (software : string) : M (answer CatalogDetail) :=
  s ← get_svc;
  let appJSONPath := filepath_Join [catalogPath s; software; "app.json"] in
  data ← os_ReadFile appJSONPath;
  match data with
  | None => mret (Failed ("software '" ++ software ++ "' not found in catalog"))
  | Some data =>
      match json_Unmarshal_detail data with
      | None => mret (Failed ("invalid app.json for '" ++ software ++ "'"))
      | Some detail => mret (Fine detail)
      end
  end.

(** The loop of [Deploy] over the declared inputs; [param] is [c.Param]. *)
Fixpoint collect_inputs (param : string -> string)
    (entries : list (string * InputConfig)) (inputs : gmap string string)
    : gmap string string :=
  match entries with
  | [] => inputs
  | (key, _) :: rest =>
      let val := param key in
      if String.eqb val ""
      then collect_inputs param rest inputs
      else collect_inputs param rest (<[key := val]> inputs)
  end.

(** [Deploy]: [seed] is the visiting order of the declared inputs. *)
Definition Deploy (args : list string) (param : string -> string)
    (seed : list nat) (io : DeployIO) : M result :=
  let software := getArg args in
  if String.eqb software ""
  then mret (Err "usage: opensourcer deploy <software> [--target local|aws]")
  else
    detail ← getCatalogDetail software;
    match detail with
    | Failed err => mret (Err err)
    | Fine detail =>
        let inputs := collect_inputs param (go_range seed (cd_Inputs detail)) ∅ in
        let target := param "target" in
        let target := if String.eqb target "" then "local" else target in
        if String.eqb target "local"
        then deployLocal io software detail inputs
        else if String.eqb target "aws"
        then mret (Err "AWS deployment not yet implemented. Use --target local")
        else mret (Err ("unknown target: " ++ target))
    end.

(** One turn of the loop of [List]: the lines of one deployment are
    appended to the output; [d.ID[:8]] panics on a shorter identifier. *)
Definition list_row (d : LocalDeployment) (output : string) : outcome string :=
  let statusIcon := if String.eqb (ld_Status d) "stopped" then "[stopped]" else "[running]" in
  let output :=
    output ++ "  " ++ statusIcon ++ " " ++ fmt_pad_right 12 (ld_Software d) ++ "  "
      ++ fmt_pad_right 10 (ld_Target d) ++ " " ++ ld_Status d ++ newline in
  match GoString.slice_to (ld_ID d) 8 with
  | Done id8 =>
      let output := output ++ "     ID: " ++ id8 ++ newline in
      let output :=
        if 0 <? ld_Port d
        then output ++ "     URL: http://localhost:" ++ itoa (ld_Port d) ++ newline
        else output in
      Done (output ++ "     Created: "
              ++ time_Format "2006-01-02 15:04" (ld_CreatedAt d) ++ newline ++ newline)
  | Panicked => Panicked
  | Aborted => Aborted
  end.

Fixpoint list_rows (ds : list LocalDeployment) (output : string) : outcome string :=
  match ds with
  | [] => Done output
  | d :: rest =>
      match list_row d output with
      | Done output => list_rows rest output
      | Panicked => Panicked
      | Aborted => Aborted
      end
  end.

(** [List] *)
Definition List : M result := fun st =>
  let ds := deployments (svc st) in
  if (length ds =? 0)%nat
  then Done (Ok (newline ++ "No deployments found." ++ newline ++ newline
                   ++ "Use 'opensourcer deploy <software>' to create one." ++ newline),
             st)
  else
    let output := newline ++ "Your Deployments" ++ newline ++ Repeat "-" 70
                    ++ newline ++ newline in
    match list_rows ds output with
    | Done output => Done (Ok output, st)
    | Panicked => Panicked
    | Aborted => Aborted
    end.

End Handlers.

(** ** encoding/json: the text of a document

    What [json.MarshalIndent(file, "", "  ")] writes for a
    [DeploymentsFile], as package [encoding/json] documents it: struct
    fields under their tags in the order of the declaration, map keys
    sorted, strings quoted with the bytes that are no valid UTF-8 written
    as U+FFFD, one member or element to a line. *)

Module JSON.












Section Writer.

(** What the encoder writes for a byte below [0x80]: the byte, or its
    escape (a quote, a backslash, a control character, and [<], [>], [&]). *)
Variable escape_low : ascii -> string.

(** [Time.MarshalJSON]: the quoted RFC 3339 text of the time, or an
    error. *)
Variable time_text : Time -> option string.






End Writer.

End JSON.

(** ** A runtime to run the package on

    Paths are joined with a slash, case mapping outside ASCII is the
    identity, and the codec of the state file is a length-prefixed text
    format: a string is its length, a colon and its bytes; a number is a
    sign, its digits and a colon; a list is its length and its elements. *)

Module SampleRuntime.

Definition Parser (A : Type) : Type := string -> option (A * string).

Definition enc_nat (n : nat) : string :=
  NilZero.string_of_uint (Nat.to_uint n) ++ ":".

Fixpoint dec_digits (acc : nat) (s : string) : option (nat * string) :=
  match s with
  | EmptyString => None
  | String c r =>
      if Ascii.eqb c ":" then Some (acc, r)
      else match Ascii.is_nat c with
           | Some d => dec_digits (10 * acc + d) r
           | None => None
           end
  end.

Definition dec_nat : Parser nat := dec_digits 0.

Definition enc_Z (z : Z) : string :=
  (if z <? 0 then "-" else "+") ++ enc_nat (Z.abs_nat z).

Definition dec_Z : Parser Z := fun s =>
  match s with
  | EmptyString => None
  | String c r =>
      '(n, rest) ← dec_nat r;
      if Ascii.eqb c "-" then Some (- Z.of_nat n, rest)
      else if Ascii.eqb c "+" then Some (Z.of_nat n, rest)
      else None
  end.

Definition enc_str (s : string) : string :=
  enc_nat (String.length s) ++ s.

Definition dec_str : Parser string := fun s =>
  '(n, rest) ← dec_nat s;
  if (n <=? String.length rest)%nat
  then Some (String.substring 0 n rest,
             String.substring n (String.length rest - n) rest)
  else None.

Definition enc_list {A} (enc : A -> string) (l : list A) : string :=
  enc_nat (length l) ++ String.concat "" (enc <$> l).

Fixpoint dec_many {A} (dec : Parser A) (n : nat) : Parser (list A) := fun s =>
  match n with
  | O => Some ([], s)
  | S k =>
      '(x, rest) ← dec s;
      '(xs, rest') ← dec_many dec k rest;
      Some (x :: xs, rest')
  end.

Definition dec_list {A} (dec : Parser A) : Parser (list A) := fun s =>
  '(n, rest) ← dec_nat s;
  dec_many dec n rest.

Definition enc_entry (kv : string * string) : string :=
  enc_str kv.1 ++ enc_str kv.2.

Definition dec_entry : Parser (string * string) := fun s =>
  '(k, rest) ← dec_str s;
  '(v, rest') ← dec_str rest;
  Some ((k, v), rest').

Definition enc_deployment (d : LocalDeployment) : string :=
  enc_str (ld_ID d) ++ enc_str (ld_Software d) ++ enc_str (ld_Target d)
    ++ enc_str (ld_Status d) ++ enc_str (ld_Directory d) ++ enc_Z (ld_Port d)
    ++ enc_list enc_entry (map_to_list (ld_Inputs d))
    ++ enc_Z (ld_CreatedAt d) ++ enc_Z (ld_UpdatedAt d).

Definition dec_deployment : Parser LocalDeployment := fun s =>
  '(id, s) ← dec_str s;
  '(software, s) ← dec_str s;
  '(target, s) ← dec_str s;
  '(status, s) ← dec_str s;
  '(directory, s) ← dec_str s;
  '(port, s) ← dec_Z s;
  '(inputs, s) ← dec_list dec_entry s;
  '(created, s) ← dec_Z s;
  '(updated, s) ← dec_Z s;
  Some ({| ld_ID := id; ld_Software := software; ld_Target := target;
           ld_Status := status; ld_Directory := directory; ld_Port := port;
           ld_Inputs := list_to_map inputs; ld_CreatedAt := created;
           ld_UpdatedAt := updated |}, s).

Definition marshal (file : DeploymentsFile) : option string :=
  Some (enc_list enc_deployment (df_Deployments file)).

Definition unmarshal (data : string) : option DeploymentsFile :=
  '(ds, rest) ← dec_list dec_deployment data;
  if String.eqb rest "" then Some {| df_Deployments := ds |} else None.

Definition runtime (aborts : bool) : GoRuntime :=
  {| unicode_ToUpper := id;
     filepath_Join := String.concat "/";
     json_MarshalIndent := marshal;
     json_Unmarshal := unmarshal;
     rand_Read_aborts := aborts |}.

Definition ok : ExecResult :=
  {| exec_err := None; exec_stderr := ""; exec_output := "" |}.
Definition failed : ExecResult :=
  {| exec_err := Some "exit status 1"; exec_stderr := "engine error"; exec_output := "" |}.

Definition ghost : CatalogDetail :=
  {| cd_Name := "Ghost"; cd_Description := "publishing"; cd_Website := "";
     cd_Icon := ""; cd_Category := "cms"; cd_Tags := [];
     cd_Inputs := ∅; cd_Services := ∅ |}.

Definition ghost_compose : string :=
  "ports:" ++ newline ++ "  - " ++ String GoString.dquote "2368:2368"
    ++ String GoString.dquote newline.

(** A composition that maps both host port 80 and host port 8080. *)
Definition two_ports_compose : string :=
  "ports:" ++ newline
    ++ "  - " ++ String GoString.dquote "80:80" ++ String GoString.dquote newline
    ++ "  - " ++ String GoString.dquote "8080:8080" ++ String GoString.dquote newline.

Definition text_input (type : string) : InputConfig :=
  {| ic_Label := ""; ic_Placeholder := ""; ic_Required := false;
     ic_Type := type; ic_Description := ""; ic_Default := "" |}.

(** A definition that declares a text input and a password input. *)
Definition wiki : CatalogDetail :=
  {| cd_Name := "Wiki"; cd_Description := "notes"; cd_Website := "";
     cd_Icon := ""; cd_Category := "docs"; cd_Tags := [];
     cd_Inputs := <["domain" := text_input "text"]>
                    (<["api-token" := text_input "password"]> ∅);
     cd_Services := ∅ |}.

(** Two input keys with one environment-variable name. *)
Definition colliding_inputs : gmap string string :=
  <["admin-password" := "hunter2"]> (<["admin_password" := "s3cret"]> ∅).

(** The catalog entry of [ghost]: two files and a directory with one. *)
Definition ghost_catalog : list DirEntry :=
  [EntryFile "app.json" (Fine "{}") None;
   EntryFile "docker-compose.yaml" (Fine ghost_compose) None;
   EntryDir "assets" None (Fine [EntryFile "logo.svg" (Fine "<svg/>") None])].

Definition deploy_io (probe : ExecResult) (uuid : string) (now : Time) : DeployIO :=
  {| dio_probe := probe; dio_mkdir := None;
     dio_catalog := Fine ghost_catalog; dio_env_write := None;
     dio_environ := []; dio_up := ok; dio_uuid := uuid;
     dio_created := now; dio_updated := now; dio_save := None;
     dio_seed_inputs := []; dio_seed_detail := []; dio_seed_envfile := [];
     dio_seed_envslice := []; dio_seed_ports := [] |}.

Definition deploy_ok : string -> Time -> DeployIO := deploy_io ok.

Definition ghost_record : LocalDeployment :=
  {| ld_ID := "id-1"; ld_Software := "ghost"; ld_Target := "local";
     ld_Status := "running";
     ld_Directory := "/home/u/.opensourcer/deployments/ghost";
     ld_Port := 2368; ld_Inputs := <["domain" := "example.org"]> ∅;
     ld_CreatedAt := 10; ld_UpdatedAt := 10 |}.

Definition wiki_record : LocalDeployment :=
  {| ld_ID := "id-2"; ld_Software := "wiki"; ld_Target := "local";
     ld_Status := "stopped";
     ld_Directory := "/home/u/.opensourcer/deployments/wiki";
     ld_Port := 0; ld_Inputs := ∅;
     ld_CreatedAt := 20; ld_UpdatedAt := 25 |}.

Definition empty_world : World :=
  {| files := ∅; dirs := ∅; log := []; entropy := replicate 100 x2a |}.

Definition start_state : State :=
  {| svc := {| configPath := "/home/u/.opensourcer";
               catalogPath := "/home/u/.opensourcer/catalog";
               deployments := [] |};
     world := empty_world |}.

(** A running service that tracks two deployments. *)
Definition tracking_state : State :=
  {| svc := set_deployments [ghost_record; wiki_record] (svc start_state);
     world := empty_world |}.

End SampleRuntime.

(** ** More of the runtime to run the package on

    The definition file of the example catalog is the word [inputs:]
    followed by its declared inputs as [key=type;]; padding counts bytes
    and a time is printed as its number. *)

Module SampleMore.

(** The text before the first [c] and the text after it. *)
Fixpoint cut_at (c : ascii) (s : string) : option (string * string) :=
  match s with
  | EmptyString => None
  | String x r =>
      if Ascii.eqb x c then Some (EmptyString, r)
      else '(a, b) ← cut_at c r; Some (String x a, b)
  end.

Fixpoint dec_inputs (fuel : nat) (s : string) : option (list (string * InputConfig)) :=
  match fuel with
  | O => None
  | S fuel' =>
      if String.eqb s "" then Some []
      else
        '(key, rest) ← cut_at "=" s;
        '(type, rest') ← cut_at ";" rest;
        entries ← dec_inputs fuel' rest';
        Some ((key, SampleRuntime.text_input type) :: entries)
  end.

Definition unmarshal_detail (data : string) : option CatalogDetail :=
  if String.prefix "inputs:" data
  then
    let body := String.substring 7 (String.length data - 7) data in
    entries ← dec_inputs (S (String.length body)) body;
    Some {| cd_Name := "Example"; cd_Description := ""; cd_Website := "";
            cd_Icon := ""; cd_Category := ""; cd_Tags := [];
            cd_Inputs := list_to_map entries; cd_Services := ∅ |}
  else None.

Definition pad_right (width : nat) (s : string) : string :=
  s ++ Repeat " " (width - String.length s).

Global Instance text : GoText :=
  {| json_Unmarshal_detail := unmarshal_detail;
     fmt_pad_right := pad_right;
     time_Format := fun _ t => itoa t |}.

(** A runtime whose [MarshalIndent] fails on every document. *)
Definition runtime_without_marshal : GoRuntime :=
  {| unicode_ToUpper := id;
     filepath_Join := String.concat "/";
     json_MarshalIndent := fun _ => None;
     json_Unmarshal := SampleRuntime.unmarshal;
     rand_Read_aborts := true |}.

(** The service of the examples after its list was saved. *)
Definition saved_state : State :=
  match saveDeployments (rt := SampleRuntime.runtime true) None
          SampleRuntime.tracking_state with
  | Done (_, st) => st
  | _ => SampleRuntime.tracking_state
  end.

(** A world that holds the definition file of [wiki] in the catalog. *)
Definition catalog_world : World :=
  set_files (<["/home/u/.opensourcer/catalog/wiki/app.json" :=
                 "inputs:domain=text;api-token=password;"]> ∅)
    SampleRuntime.empty_world.

Definition catalog_state : State :=
  {| svc := svc SampleRuntime.start_state; world := catalog_world |}.







(** The outside before the first run: no file, no directory, and a
    secure source that delivers four hundred bytes. *)
Definition first_world : World :=
  set_entropy (replicate 400 x2a) SampleRuntime.empty_world.

(** A run of the program for a user whose home is [/home/u]. *)
Definition request (op : Op) : Request :=
  {| rq_home := "/home/u"; rq_mkdir := None; rq_op := op |}.

(** [c.Param] of a command line with [--domain example.org] and a target. *)
Definition flags (target : string) (key : string) : string :=
  if String.eqb key "domain" then "example.org"
  else if String.eqb key "target" then target
  else "".

End SampleMore.

(** ** Vocabulary of the properties *)

Section Vocabulary.
Context `{rt : GoRuntime}.

(** The number of bytes [generatePassword] asks the secure source for. *)
Definition bytes_asked (length : Z) : nat := Z.to_nat (length ÷ 2 + 1).

Definition baseline_secrets : list string :=
  ["DB_PASSWORD"; "ADMIN_PASSWORD"; "SECRET_KEY"].

(** What a returned environment set guarantees. *)
Record env_guarantee (detail : CatalogDetail) (inputs env : gmap string string)
    : Prop := {
  (** every declared password input has a non-empty value *)
  eg_passwords : ∀ key input,
    cd_Inputs detail !! key = Some input → ic_Type input = "password" →
    ∃ v, env !! envKeyOf key = Some v ∧ v ≠ "";
  (** so have the three baseline secrets *)
  eg_baseline : ∀ k, k ∈ baseline_secrets → ∃ v, env !! k = Some v ∧ v ≠ "";
  (** the name of a non-empty user input holds the value of a non-empty
      user input with that name: never a generated default *)
  eg_user : ∀ key value,
    inputs !! key = Some value → value ≠ "" →
    ∃ key' value', inputs !! key' = Some value' ∧ value' ≠ "" ∧
                   envKeyOf key' = envKeyOf key ∧
                   env !! envKeyOf key = Some value';
  (** and holds the input's own value when no other non-empty user
      input has the same name with another value *)
  eg_verbatim : ∀ key value,
    inputs !! key = Some value → value ≠ "" →
    (∀ key' value', inputs !! key' = Some value' → value' ≠ "" →
                    envKeyOf key' = envKeyOf key → value' = value) →
    env !! envKeyOf key = Some value;
}.

(** What [loadDeployments] leaves in the store, given what was there. *)
Definition loaded (st : State) : list LocalDeployment :=
  match files (world st) !! deployFile (svc st) with
  | None => deployments (svc st)
  | Some data =>
      match json_Unmarshal data with
      | None => deployments (svc st)
      | Some file => df_Deployments file
      end
  end.

End Vocabulary.

(** ** Vocabulary of the further properties *)

Section MoreVocabulary.
Context `{rt : GoRuntime}.

(** The state file holds the document of the list in memory; after a
    [MarshalIndent] that failed, the empty data [saveDeployments] writes. *)
Definition reconciled (st : State) : Prop :=
  files (world st) !! deployFile (svc st) =
    Some (default "" (json_MarshalIndent {| df_Deployments := deployments (svc st) |})).

(** The token [generatePassword] makes from the bytes it read. *)
Definition token_of (length : Z) (bytes : list byte) : string :=
  GoString.map_bytes GoString.upper_byte
    (String.substring 0 (Z.to_nat length) (Hex.EncodeToString bytes)).

(** A character the environment name of an ASCII key can hold: no
    lower-case letter and no hyphen. *)
Definition env_name_char (c : ascii) : bool :=
  negb (GoString.is_lower c) && negb (Ascii.eqb c "-").

(** Whether no record before index [i] has the identifier of [d]. *)
Definition first_of_its_id (i : nat) (d : LocalDeployment)
    (ds : list LocalDeployment) : Prop :=
  ∀ k dk, ds !! k = Some dk → (k < i)%nat → ld_ID dk ≠ ld_ID d.

(** What a successful [docker compose <word>] of [stopDocker] or
    [startDocker] for the record [d] at index [i] leaves: the first
    record with the identifier of [d] has the status and the clock
    reading, the command was run and the state file written, in this
    order, and nothing else was done. *)
Definition status_set (word status : string) (io : StatusIO) (i : nat)
    (d : LocalDeployment) (st st' : State) : Prop :=
  ∃ j dj,
    list_find (λ x, ld_ID x = ld_ID d) (deployments (svc st)) = Some (j, dj) ∧
    (j ≤ i)%nat ∧
    (first_of_its_id i d (deployments (svc st)) → j = i) ∧
    deployments (svc st') =
      alter (set_status status (sio_now io)) j (deployments (svc st)) ∧
    dirs (world st') = dirs (world st) ∧
    log (world st') =
      (log (world st) ++
         [EvExec ["docker"; "compose"; "-f"; compose_path d; word] (ld_Directory d) [];
          EvWriteFile (deployFile (svc st))
            (default ""
               (json_MarshalIndent
                  {| df_Deployments :=
                       alter (set_status status (sio_now io)) j
                         (deployments (svc st)) |}))])%list.




(** Whether an event makes a directory or writes a file. *)
Definition is_creation (e : Event) : bool :=
  match e with
  | EvMkdirAll _ | EvWriteFile _ _ => true
  | EvExec _ _ _ | EvRemoveAll _ => false
  end.

(** [w'] is [w] after directories were made and files written, and
    nothing else: no directory and no file of [w] is gone, no command was
    run, nothing was removed and the random source was not read. *)
Definition only_adds (w w' : World) : Prop :=
  dirs w ⊆ dirs w' ∧
  dom (files w) ⊆ dom (files w') ∧
  entropy w' = entropy w ∧
  ∃ evs, log w' = (log w ++ evs)%list ∧ forallb is_creation evs = true.

(** Whether every answer of the outside in the tree of an entry is a
    success: each read and write of a file, each [MkdirAll] and each
    [os.ReadDir] of a directory, at every depth. *)
Fixpoint entry_fine (e : DirEntry) : bool :=
  match e with
  | EntryFile _ (Fine _) None => true
  | EntryDir _ None (Fine entries) => forallb entry_fine entries
  | _ => false
  end.

(** The directory [deployLocal] deploys a slug into. *)
Definition deployDir_of (s : Service) (software : string) : string :=
  filepath_Join [configPath s; "deployments"; software].

(** The world after the first three steps of [deployLocal] when the
    probe and the [MkdirAll] succeeded: the probe, the directory and the
    copy of the catalog entry. *)
Definition staged (io : DeployIO) (software : string) (st : State) : World :=
  let deployDir := deployDir_of (svc st) software in
  let w := (OS.Run (dio_probe io) ["docker"; "info"] "" [] (world st)).2 in
  let w := (OS.MkdirAll None deployDir w).2 in
  (copyDir (dio_catalog io) (filepath_Join [catalogPath (svc st); software])
     deployDir w).2.

(** The baseline secrets with the lengths [prepareEnvVars] asks for. *)
Definition baseline_lengths : list (string * nat) :=
  [("DB_PASSWORD", 16%nat); ("ADMIN_PASSWORD", 12%nat); ("SECRET_KEY", 48%nat)].

(** Whether a user input with a value has the environment name [name]. *)
Definition user_sets (inputs : gmap string string) (name : string) : Prop :=
  ∃ key value, inputs !! key = Some value ∧ value ≠ "" ∧ envKeyOf key = name.

(** Whether a declared input of type password has the environment name
    [name]. *)
Definition declares_password (detail : CatalogDetail) (name : string) : Prop :=
  ∃ key input, cd_Inputs detail !! key = Some input ∧
               ic_Type input = "password" ∧ envKeyOf key = name.

End MoreVocabulary.

Section HandlerVocabulary.
Context `{rt : GoRuntime} `{tx : GoText}.

(** A deploy request the handler turns down before [deployLocal]: no
    slug on the command line, no readable definition of the slug in the
    catalog, a definition [json.Unmarshal] rejects, or a target other
    than [local]. *)
Definition deploy_refused (args : list string) (param : string -> string)
    (st : State) : Prop :=
  getArg args = "" ∨
  match files (world st)
          !! filepath_Join [catalogPath (svc st); getArg args; "app.json"] with
  | None => True
  | Some data =>
      match json_Unmarshal_detail data with
      | None => True
      | Some _ => param "target" ≠ "" ∧ param "target" ≠ "local"
      end
  end.

(** An identifier [List] cannot cut to eight bytes. *)
Definition short_id (d : LocalDeployment) : Prop :=
  (String.length (ld_ID d) < 8)%nat.

End HandlerVocabulary.

(** * Properties *)

Local Open Scope list_scope.

(** Linear arithmetic with the truncated and floored divisions by constants. *)
Ltac div_lia := Z.to_euclidean_division_equations; lia.

(** ** Visiting orders *)

Section RangeFacts.
Context {A : Type}.
Implicit Types (l : list A) (seed : list nat).

Lemma insert_at_perm i x l : insert_at i x l ≡ₚ x :: l.
Proof.
  revert i; induction l as [|y r IH]; intros [|j]; simpl; try done.
  rewrite IH. apply Permutation_swap.
Qed.

Lemma permute_perm seed l : permute seed l ≡ₚ l.
Proof.
  revert seed; induction l as [|x r IH]; intros seed; simpl; [done|].
  destruct seed as [|i seed'].
  - by rewrite IH.
  - by rewrite insert_at_perm, IH.
Qed.

Lemma insert_at_middle x l1 l2 : insert_at (length l1) x (l1 ++ l2) = l1 ++ x :: l2.
Proof.
  induction l1 as [|y r IH]; simpl.
  - by destruct l2.
  - by rewrite IH.
Qed.

(** Every order of the entries is the order of some seed. *)
Lemma permute_complete l l' : l' ≡ₚ l → ∃ seed, permute seed l = l'.
Proof.
  revert l'; induction l as [|x r IH]; intros l' Hp.
  - apply Permutation_nil_r in Hp as ->. by exists [].
  - assert (x ∈ l') as Hx by (rewrite Hp; left).
    apply list_elem_of_split in Hx as (l1 & l2 & ->).
    symmetry in Hp. apply Permutation_cons_app_inv in Hp. symmetry in Hp.
    destruct (IH _ Hp) as [seed Hseed].
    exists (length l1 :: seed). simpl. rewrite Hseed.
    apply insert_at_middle.
Qed.

End RangeFacts.

Lemma go_range_perm {V} seed (m : gmap string V) : go_range seed m ≡ₚ map_to_list m.
Proof. apply permute_perm. Qed.

Lemma go_range_complete {V} (m : gmap string V) (order : list (string * V)) :
  order ≡ₚ map_to_list m → ∃ seed, go_range seed m = order.
Proof. apply permute_complete. Qed.

Lemma elem_of_go_range {V} seed (m : gmap string V) k v :
  (k, v) ∈ go_range seed m ↔ m !! k = Some v.
Proof. rewrite go_range_perm. apply elem_of_map_to_list. Qed.

(** ** Strings *)

Section StringFacts.
Import GoString.

Lemma substring_0_length n s :
  (n ≤ String.length s)%nat → String.length (String.substring 0 n s) = n.
Proof.
  revert n; induction s as [|c r IH]; intros [|n] Hn; simpl in *; try done; try lia.
  f_equal. apply IH. lia.
Qed.

Lemma all_chars_substring_0 p n s :
  all_chars p s = true → all_chars p (String.substring 0 n s) = true.
Proof.
  revert n; induction s as [|c r IH]; intros [|n] Hs; simpl in *; try done.
  apply andb_true_iff in Hs as [Hc Hr]. by rewrite Hc, IH.
Qed.

Lemma map_bytes_length f s : String.length (map_bytes f s) = String.length s.
Proof. induction s; simpl; congruence. Qed.

Lemma all_chars_impl (p q : ascii → bool) s :
  (∀ c, p c = true → q c = true) → all_chars p s = true → all_chars q s = true.
Proof.
  intros Hpq; induction s as [|c r IH]; simpl; [done|].
  intros [Hc Hr]%andb_true_iff. by rewrite (Hpq _ Hc), IH.
Qed.

Lemma all_chars_map_bytes (p q : ascii → bool) f s :
  (∀ c, p c = true → q (f c) = true) →
  all_chars p s = true → all_chars q (map_bytes f s) = true.
Proof.
  intros Hpq; induction s as [|c r IH]; simpl; [done|].
  intros [Hc Hr]%andb_true_iff. by rewrite (Hpq _ Hc), IH.
Qed.

Lemma isASCII_all_chars s :
  isASCII s = all_chars (λ c, (nat_of_ascii c <? 128)%nat) s.
Proof. induction s; simpl; congruence. Qed.

Lemma lower_hex_facts c :
  Hex.is_lower_hex c = true →
  Hex.is_upper_hex (upper_byte c) = true ∧ (nat_of_ascii c <? 128)%nat = true.
Proof.
  destruct c as [[] [] [] [] [] [] [] []]; vm_compute; intros; done.
Qed.

Lemma hex_digit_lower v :
  Hex.is_lower_hex (Hex.digit (N.shiftr (Byte.to_N v) 4)) = true ∧
  Hex.is_lower_hex (Hex.digit (N.land (Byte.to_N v) 15)) = true.
Proof. destruct v; vm_compute; done. Qed.

Lemma EncodeToString_length src :
  String.length (Hex.EncodeToString src) = (2 * length src)%nat.
Proof. induction src as [|v r IH]; simpl; [done|]. rewrite IH. lia. Qed.

Lemma EncodeToString_lower_hex src :
  all_chars Hex.is_lower_hex (Hex.EncodeToString src) = true.
Proof.
  induction src as [|v r IH]; simpl; [done|].
  destruct (hex_digit_lower v) as [-> ->]. by rewrite IH.
Qed.

End StringFacts.

(** ** The token generator *)

Section TokenFacts.
Context `{rt : GoRuntime}.
Import GoString.

(** Upper-casing what [hex.EncodeToString] produced, cut or not. *)
Lemma ToUpper_hex s :
  all_chars Hex.is_lower_hex s = true →
  ToUpper s = map_bytes upper_byte s ∧
  all_chars Hex.is_upper_hex (ToUpper s) = true.
Proof.
  intros Hs. unfold ToUpper. rewrite isASCII_all_chars.
  rewrite (all_chars_impl Hex.is_lower_hex _ s); [|apply lower_hex_facts|done].
  split; [done|].
  apply (all_chars_map_bytes Hex.is_lower_hex); [apply lower_hex_facts|done].
Qed.

Lemma rand_Read_buffer b src b' n err src' :
  rand_Read b src = Done ((b', n, err), src') → length b' = length b.
Proof.
  unfold rand_Read. destruct (length b <=? length src)%nat eqn:Hle.
  - intros [= <- _ _ _]. apply Nat.leb_le in Hle. rewrite length_take. lia.
  - destruct rand_Read_aborts; [done|]. intros [= <- _ _ _].
    apply Nat.leb_gt in Hle. rewrite length_app, length_drop. lia.
Qed.

(** Whatever the secure source does, a token that is returned has the
    requested length and upper-case hexadecimal characters only. *)
Lemma generatePassword_Done length src s src' :
  generatePassword length src = Done (s, src') →
  0 ≤ length ∧ String.length s = Z.to_nat length ∧
  all_chars Hex.is_upper_hex s = true.
Proof.
  unfold generatePassword, mbind, Rand_bind, rand_lift, make_bytes, mret, Rand_ret.
  destruct (length ÷ 2 + 1 <? 0) eqn:Hneg; [done|].
  destruct (rand_Read _ src) as [[[[b' n] err] src1]| |] eqn:Hread; [|done..].
  apply rand_Read_buffer in Hread. rewrite length_replicate in Hread.
  unfold slice_to.
  destruct ((length <? 0) || _) eqn:Hcut; [done|].
  apply orb_false_iff in Hcut as [Hlo Hhi].
  apply Z.ltb_ge in Hlo, Hhi.
  intros [= <- <-].
  pose proof (EncodeToString_lower_hex b') as Hhex.
  apply (all_chars_substring_0 _ (Z.to_nat length)) in Hhex.
  destruct (ToUpper_hex _ Hhex) as [-> Hup].
  split; [done|]. split.
  - rewrite map_bytes_length, substring_0_length; [done|]. lia.
  - apply (all_chars_map_bytes Hex.is_lower_hex); [apply lower_hex_facts|done].
Qed.

(** With enough bytes in the source a token is returned, and exactly
    [bytes_asked] bytes are taken from the source. *)
Lemma generatePassword_enough length src :
  0 ≤ length → (bytes_asked length ≤ List.length src)%nat →
  generatePassword length src =
    Done (map_bytes upper_byte
            (String.substring 0 (Z.to_nat length)
               (Hex.EncodeToString (take (bytes_asked length) src))),
          drop (bytes_asked length) src).
Proof.
  intros Hlen Hsrc. unfold bytes_asked in *.
  unfold generatePassword, mbind, Rand_bind, rand_lift, make_bytes, mret, Rand_ret.
  destruct (length ÷ 2 + 1 <? 0) eqn:Hneg; [apply Z.ltb_lt in Hneg; exfalso; div_lia|].
  unfold rand_Read. rewrite length_replicate.
  destruct (_ <=? _)%nat eqn:Hle; [|apply Nat.leb_gt in Hle; lia].
  unfold slice_to.
  destruct ((length <? 0) || _) eqn:Hcut.
  { apply orb_true_iff in Hcut as [Hlo|Hhi]; [apply Z.ltb_lt in Hlo; lia|].
    apply Z.ltb_lt in Hhi. rewrite EncodeToString_length, length_take in Hhi.
    exfalso. div_lia. }
  pose proof (EncodeToString_lower_hex (take (Z.to_nat (length ÷ 2 + 1)) src)) as Hhex.
  apply (all_chars_substring_0 _ (Z.to_nat length)) in Hhex.
  by destruct (ToUpper_hex _ Hhex) as [-> _].
Qed.

(** When the source falls short the call does not return where
    [rand.Read] terminates the process, and returns a token made from
    the bytes that came and zero bytes where [rand.Read] returns the
    error of the read. *)
Lemma generatePassword_short length src :
  0 ≤ length → (List.length src < bytes_asked length)%nat →
  generatePassword length src =
    if rand_Read_aborts then Aborted
    else Done (map_bytes upper_byte
                 (String.substring 0 (Z.to_nat length)
                    (Hex.EncodeToString
                       (src ++ replicate (bytes_asked length - List.length src) x00))),
               []).
Proof.
  intros Hlen Hsrc. unfold bytes_asked in *.
  unfold generatePassword, mbind, Rand_bind, rand_lift, make_bytes, mret, Rand_ret.
  destruct (length ÷ 2 + 1 <? 0) eqn:Hneg; [apply Z.ltb_lt in Hneg; exfalso; div_lia|].
  unfold rand_Read. rewrite length_replicate.
  destruct (_ <=? _)%nat eqn:Hle; [apply Nat.leb_le in Hle; lia|].
  destruct rand_Read_aborts; [done|].
  rewrite drop_replicate.
  unfold slice_to.
  destruct ((length <? 0) || _) eqn:Hcut.
  { apply orb_true_iff in Hcut as [Hlo|Hhi]; [apply Z.ltb_lt in Hlo; lia|].
    apply Z.ltb_lt in Hhi.
    rewrite EncodeToString_length, length_app, length_replicate in Hhi.
    exfalso. div_lia. }
  pose proof (EncodeToString_lower_hex
    (src ++ replicate (Z.to_nat (length ÷ 2 + 1) - List.length src) x00)) as Hhex.
  apply (all_chars_substring_0 _ (Z.to_nat length)) in Hhex.
  by destruct (ToUpper_hex _ Hhex) as [-> _].
Qed.

End TokenFacts.

Section ZeroTokens.
Import GoString.

Lemma hex_zeros n : Hex.EncodeToString (replicate n x00) = Repeat "0" (2 * n).
Proof.
  induction n as [|n IH]; [done|].
  replace (2 * S n)%nat with (S (S (2 * n))) by lia. simpl in *. by rewrite IH.
Qed.

Lemma substring_zeros k m :
  (k ≤ m)%nat → String.substring 0 k (Repeat "0" m) = Repeat "0" k.
Proof.
  revert m; induction k as [|k IH]; intros [|m] Hkm; simpl; try done; try lia.
  f_equal. apply IH. lia.
Qed.

Lemma upper_zeros k : map_bytes upper_byte (Repeat "0" k) = Repeat "0" k.
Proof.
  induction k as [|k IH]; [done|].
  change (Repeat "0" (S k)) with (String "0" (Repeat "0" k)).
  cbn [map_bytes]. by rewrite IH.
Qed.

End ZeroTokens.

(** C3.  The token generator drops what [rand.Read] returns.  On a
    runtime whose [rand.Read] returns the error of a failed read (and
    does not terminate the process itself), a secure source that delivers
    nothing does not stop [generatePassword]: for every requested length
    it returns the token of that many zero digits, a predictable value. *)
Theorem generatePassword_unavailable_source `{rt : GoRuntime} (length : Z) :
  rand_Read_aborts = false → 0 ≤ length →
  generatePassword length [] = Done (Repeat "0" (Z.to_nat length), []).
Proof.
  intros Hrt Hlen.
  rewrite generatePassword_short; [|done|unfold bytes_asked; simpl; div_lia].
  rewrite Hrt. simpl. rewrite Nat.sub_0_r, hex_zeros.
  rewrite substring_zeros, upper_zeros; [done|].
  unfold bytes_asked. div_lia.
Qed.

Lemma generatePassword_unavailable_source_witness :
  generatePassword (rt := SampleRuntime.runtime false) 16 [] =
    Done ("0000000000000000"%string, []).
Proof.
  apply (generatePassword_unavailable_source (rt := SampleRuntime.runtime false) 16);
    [reflexivity | lia].
Defined.

(** Where [rand.Read] terminates the process on a failed read, so does
    every call of the generator that meets a source falling short. *)
Lemma generatePassword_aborts `{rt : GoRuntime} (length : Z) (src : list byte) :
  rand_Read_aborts = true → 0 ≤ length →
  (List.length src < bytes_asked length)%nat →
  generatePassword length src = Aborted.
Proof. intros Hrt Hlen Hsrc. by rewrite generatePassword_short, Hrt. Qed.

(** C4, as stated, fails for odd lengths: for length 1 one byte is taken
    from the source, where the rounded-up half plus one is 2. *)
Lemma generatePassword_odd_length_bytes :
  generatePassword (rt := SampleRuntime.runtime true) 1 [x1a; x2b] =
    Done ("1"%string, [x2b]) ∧
  (List.length [x1a; x2b] - List.length [x2b])%nat ≠ Z.to_nat ((1 + 1) / 2 + 1).
Proof. split; [reflexivity|]. vm_compute. lia. Qed.

(** C4, amended.  For every requested length of at least 1 and a secure
    source that delivers the bytes asked for, [generatePassword] returns
    a string of exactly that many characters, all of them upper-case
    hexadecimal digits; it takes exactly [length/2 + 1] bytes (integer
    division) from the source, and the token is the hexadecimal encoding
    of those bytes cut to the requested length and put in upper case. *)
Theorem generatePassword_token `{rt : GoRuntime} (length : Z) (src : list byte) :
  1 ≤ length → (Z.to_nat (length / 2 + 1) ≤ List.length src)%nat →
  ∃ s,
    generatePassword length src = Done (s, drop (Z.to_nat (length / 2 + 1)) src) ∧
    s = GoString.map_bytes GoString.upper_byte
          (String.substring 0 (Z.to_nat length)
             (Hex.EncodeToString (take (Z.to_nat (length / 2 + 1)) src))) ∧
    String.length s = Z.to_nat length ∧
    GoString.all_chars Hex.is_upper_hex s = true.
Proof.
  intros Hlen Hsrc.
  assert (bytes_asked length = Z.to_nat (length / 2 + 1)) as Hasked.
  { unfold bytes_asked. by rewrite Z.quot_div_nonneg by lia. }
  pose proof (generatePassword_enough length src) as Hgen.
  rewrite Hasked in Hgen. specialize (Hgen ltac:(lia) Hsrc).
  eexists. split; [exact Hgen|]. split; [done|].
  by destruct (generatePassword_Done _ _ _ _ Hgen) as (_ & ? & ?).
Qed.

Lemma generatePassword_token_witness :
  ∃ s,
    generatePassword (rt := SampleRuntime.runtime true) 5 [x1a; xff; x03; x04] =
      Done (s, [x04]) ∧
    s = "1AFF0"%string ∧ String.length s = 5%nat ∧
    GoString.all_chars Hex.is_upper_hex s = true.
Proof.
  destruct (generatePassword_token (rt := SampleRuntime.runtime true) 5
              [x1a; xff; x03; x04]) as (s & Hgen & Hs & Hlen & Hhex);
    [lia | vm_compute; lia |].
  exists s. repeat split; done.
Defined.

(** ** Port detection *)

Lemma scan_ports_result entries composeContent :
  (scan_ports entries composeContent = 0 ∧
   ∀ port portNum, (port, portNum) ∈ entries → port_occurs composeContent port = false) ∨
  ∃ port, (port, scan_ports entries composeContent) ∈ entries ∧
          port_occurs composeContent port = true.
Proof.
  induction entries as [|[port portNum] rest IH]; simpl.
  { left. split; [done|]. intros ?? Hin. by apply elem_of_nil in Hin. }
  destruct (port_occurs composeContent port) eqn:Hocc.
  - right. exists port. split; [left|done].
  - destruct IH as [[IH Hnone]|(p & Hin & Hp)].
    + left. split; [done|]. intros p n Hin.
      apply elem_of_cons in Hin as [[= -> ->]|Hin]; [done|by eapply Hnone].
    + right. exists p. split; [by right|done].
Qed.

(** Whatever the visiting order, the port returned is 0 or a port of the
    table whose pattern occurs in the text. *)
Lemma findExposedPort_result seed composeContent :
  (findExposedPort seed composeContent = 0 ∧
   ∀ port, is_Some (portMap !! port) → port_occurs composeContent port = false) ∨
  ∃ port, portMap !! port = Some (findExposedPort seed composeContent) ∧
          port_occurs composeContent port = true.
Proof.
  unfold findExposedPort.
  destruct (scan_ports_result (go_range seed portMap) composeContent)
    as [[H0 Hnone]|(port & Hin & Hocc)].
  - left. split; [done|]. intros port [portNum Hport].
    apply (Hnone port portNum). by apply elem_of_go_range.
  - right. exists port. by apply elem_of_go_range in Hin.
Qed.

(** When the patterns of at most one port of the table occur in the text,
    the visiting order does not matter: that port is returned. *)
Lemma findExposedPort_single seed composeContent port portNum :
  portMap !! port = Some portNum → port_occurs composeContent port = true →
  (∀ port', is_Some (portMap !! port') → port_occurs composeContent port' = true →
            port' = port) →
  findExposedPort seed composeContent = portNum.
Proof.
  intros Hport Hocc Honly.
  destruct (findExposedPort_result seed composeContent)
    as [[_ Hnone]|(port' & Hport' & Hocc')].
  - rewrite Hnone in Hocc; [done|by eexists].
  - assert (port' = port) as -> by (apply Honly; [by eexists|done]). congruence.
Qed.

Lemma scan_ports_none entries composeContent :
  (∀ port portNum, (port, portNum) ∈ entries → port_occurs composeContent port = false) →
  scan_ports entries composeContent = 0.
Proof.
  induction entries as [|[port portNum] rest IH]; simpl; intros Hnone; [done|].
  rewrite (Hnone port portNum) by left.
  apply IH. intros p n Hin. apply (Hnone p n). by right.
Qed.

(** With no pattern of the table in the text the result is 0 in every
    visiting order. *)
Lemma findExposedPort_none seed composeContent :
  (∀ port, is_Some (portMap !! port) → port_occurs composeContent port = false) →
  findExposedPort seed composeContent = 0.
Proof.
  intros Hnone. apply scan_ports_none. intros port portNum Hin.
  apply elem_of_go_range in Hin. apply Hnone. by exists portNum.
Qed.

(** Every port of the table whose pattern occurs in the text is returned
    in some visiting order. *)
Lemma findExposedPort_any_occurring composeContent port portNum :
  portMap !! port = Some portNum → port_occurs composeContent port = true →
  ∃ seed, findExposedPort seed composeContent = portNum.
Proof.
  intros Hport Hocc.
  apply elem_of_map_to_list in Hport.
  apply list_elem_of_split in Hport as (l1 & l2 & Hsplit).
  destruct (go_range_complete portMap ((port, portNum) :: l1 ++ l2)) as [seed Hseed].
  { rewrite Hsplit. by rewrite Permutation_middle. }
  exists seed. unfold findExposedPort. rewrite Hseed. simpl. by rewrite Hocc.
Qed.

(** C2.  [findExposedPort] ranges over a map, so the order in which the
    table is tried belongs to the run and not to the table: on the text
    with the lines [- "80:80"] and [- "8080:8080"] one visiting order
    returns 8080 and another returns 80. *)
Theorem findExposedPort_two_ports_two_answers :
  findExposedPort [] SampleRuntime.two_ports_compose = 8080 ∧
  findExposedPort [1; 1; 1; 1; 1; 1; 1; 1; 1]%nat SampleRuntime.two_ports_compose = 80.
Proof. split; vm_compute; reflexivity. Qed.

(** ** Environment synthesis *)

Section EnvFacts.
Context `{rt : GoRuntime}.
Implicit Types (envVars env : gmap string string).

(** A name of the result of the first loop holds the value of a
    non-empty input with that name, or what it held before when no such
    input exists. *)
Lemma apply_inputs_lookup entries envVars k :
  (∃ key value, (key, value) ∈ entries ∧ value ≠ ""%string ∧ envKeyOf key = k ∧
                apply_inputs entries envVars !! k = Some value) ∨
  ((∀ key value, (key, value) ∈ entries → value ≠ ""%string → envKeyOf key ≠ k) ∧
   apply_inputs entries envVars !! k = envVars !! k).
Proof.
  revert envVars; induction entries as [|[key value] rest IH]; intros envVars; simpl.
  { right. split; [|done]. intros ?? Hin. by apply elem_of_nil in Hin. }
  destruct (String.eqb value "") eqn:Hval.
  - apply String.eqb_eq in Hval as ->.
    destruct (IH envVars) as [(key' & value' & Hin & ? & ? & ?)|[Hnone Hsame]].
    + left. exists key', value'. split; [by right|done].
    + right. split; [|done]. intros key' value' Hin Hne.
      apply elem_of_cons in Hin as [[= -> ->]|Hin]; [done|by eapply Hnone].
  - apply String.eqb_neq in Hval.
    destruct (IH (<[envKeyOf key := value]> envVars))
      as [(key' & value' & Hin & ? & ? & ?)|[Hnone Hsame]].
    + left. exists key', value'. split; [by right|done].
    + destruct (decide (envKeyOf key = k)) as [Hk|Hk].
      * left. exists key, value. split; [left|]. split; [done|]. split; [done|].
        by rewrite Hsame, Hk, lookup_insert_eq.
      * right. split.
        -- intros key' value' Hin Hne.
           apply elem_of_cons in Hin as [[= -> ->]|Hin]; [done|by eapply Hnone].
        -- by rewrite Hsame, lookup_insert_ne.
Qed.

(** The second loop keeps what is set, adds only 12-character tokens,
    and leaves no declared password input without a value. *)
Lemma generate_missing_Done entries envVars src env src' :
  generate_missing entries envVars src = Done (env, src') →
  (∀ k v, envVars !! k = Some v → env !! k = Some v) ∧
  (∀ k v, env !! k = Some v →
     envVars !! k = Some v ∨ (envVars !! k = None ∧ String.length v = 12%nat)) ∧
  (∀ key input, (key, input) ∈ entries → ic_Type input = "password"%string →
     is_Some (env !! envKeyOf key)).
Proof.
  revert envVars src; induction entries as [|[key input] rest IH];
    intros envVars src; simpl.
  { intros [= <- <-]. split; [done|]. split; [by left|].
    intros ?? Hin. by apply elem_of_nil in Hin. }
  destruct (envVars !! envKeyOf key) as [v0|] eqn:Hk.
  - intros Hrest. destruct (IH _ _ Hrest) as (Hkeep & Hnew & Hpw).
    split; [done|]. split; [done|]. intros key' input' Hin Htype.
    apply elem_of_cons in Hin as [[= -> ->]|Hin]; [|by eapply Hpw].
    exists v0. by apply Hkeep.
  - destruct (String.eqb (ic_Type input) "password") eqn:Htype.
    + unfold mbind at 1, Rand_bind.
      destruct (generatePassword 12 src) as [[p src1]| |] eqn:Hgen; [|done..].
      intros Hrest. destruct (IH _ _ Hrest) as (Hkeep & Hnew & Hpw).
      apply generatePassword_Done in Hgen as (_ & Hlen & _).
      split; [|split].
      * intros k v Hkv. apply Hkeep. rewrite lookup_insert_ne; [done|].
        intros Heq. rewrite Heq in Hk. congruence.
      * intros k v Hkv. destruct (Hnew _ _ Hkv) as [Hold|[Hold Hv]].
        -- destruct (decide (envKeyOf key = k)) as [<-|Hne].
           ++ rewrite lookup_insert_eq in Hold. injection Hold as <-.
              right. split; [done|]. by rewrite Hlen.
           ++ rewrite lookup_insert_ne in Hold by done. by left.
        -- right. split; [|done].
           destruct (decide (envKeyOf key = k)) as [<-|Hne].
           ++ by rewrite lookup_insert_eq in Hold.
           ++ by rewrite lookup_insert_ne in Hold.
      * intros key' input' Hin Htype'.
        apply elem_of_cons in Hin as [[= -> ->]|Hin]; [|by eapply Hpw].
        exists p. apply Hkeep. apply lookup_insert_eq.
    + intros Hrest. destruct (IH _ _ Hrest) as (Hkeep & Hnew & Hpw).
      split; [done|]. split; [done|]. intros key' input' Hin Htype'.
      apply elem_of_cons in Hin as [[= -> ->]|Hin]; [|by eapply Hpw].
      apply String.eqb_neq in Htype. done.
Qed.

(** Seven bytes of the source for each declared input are enough for
    the second loop to return. *)
Lemma generate_missing_returns entries envVars src :
  (7 * length entries ≤ length src)%nat →
  ∃ env src', generate_missing entries envVars src = Done (env, src') ∧
              (length src - 7 * length entries ≤ length src')%nat.
Proof.
  revert envVars src; induction entries as [|[key input] rest IH];
    intros envVars src Hsrc; simpl in *.
  { eexists _, _. split; [done|lia]. }
  destruct (envVars !! envKeyOf key) as [v0|] eqn:Hk.
  - destruct (IH envVars src) as (env & src' & -> & Hleft); [lia|].
    eexists _, _. split; [done|lia].
  - destruct (String.eqb (ic_Type input) "password") eqn:Htype.
    + unfold mbind at 1, Rand_bind.
      rewrite generatePassword_enough;
        [|lia|change (bytes_asked 12) with 7%nat; lia].
      change (bytes_asked 12) with 7%nat.
      destruct (IH (<[envKeyOf key := GoString.map_bytes GoString.upper_byte
                        (String.substring 0 (Z.to_nat 12)
                           (Hex.EncodeToString (take 7 src)))]> envVars)
                  (drop 7 src)) as (env & src' & -> & Hleft).
      { rewrite length_drop. lia. }
      eexists _, _. split; [done|]. rewrite length_drop in Hleft. lia.
    + destruct (IH envVars src) as (env & src' & -> & Hleft); [lia|].
      eexists _, _. split; [done|lia].
Qed.

End EnvFacts.

Section EnvGuarantee.
Context `{rt : GoRuntime}.
Implicit Types (env : gmap string string).

Lemma length_nonempty (s : string) n : String.length s = S n → s ≠ ""%string.
Proof. by intros Hlen ->. Qed.

Lemma prepareEnvVars_Done seed_inputs seed_detail detail inputs src env src' :
  prepareEnvVars seed_inputs seed_detail detail inputs src = Done (env, src') →
  env_guarantee detail inputs env.
Proof.
  unfold prepareEnvVars, mbind, Rand_bind, mret, Rand_ret.
  destruct (generatePassword 16 src) as [[db s1]| |] eqn:Hdb; [|done..].
  destruct (generatePassword 12 s1) as [[admin s2]| |] eqn:Hadmin; [|done..].
  destruct (generatePassword 48 s2) as [[secret s3]| |] eqn:Hsecret; [|done..].
  apply generatePassword_Done in Hdb as (_ & Hdb & _).
  apply generatePassword_Done in Hadmin as (_ & Hadmin & _).
  apply generatePassword_Done in Hsecret as (_ & Hsecret & _).
  change (Z.to_nat 16) with 16%nat in Hdb.
  change (Z.to_nat 12) with 12%nat in Hadmin.
  change (Z.to_nat 48) with 48%nat in Hsecret.
  set (env1 := <["SECRET_KEY"%string := secret]> _).
  set (env2 := apply_inputs _ env1).
  destruct (generate_missing _ env2 s3) as [[env3 s4]| |] eqn:Hgen; [|done..].
  apply generate_missing_Done in Hgen as (Hkeep & Hnew & Hpw).
  intros [= <- <-].
  set (env4 := match env3 !! "DOMAIN"%string with
               | Some _ => env3
               | None => <["DOMAIN"%string := "localhost"%string]> env3
               end).
  (* values are never empty *)
  assert (∀ k v, env1 !! k = Some v → v ≠ ""%string) as Hne1.
  { intros k v. unfold env1.
    rewrite !lookup_insert.
    repeat case_decide;
      try (intros [= <-]; eapply length_nonempty; eassumption);
      by rewrite lookup_empty. }
  assert (∀ k v, env2 !! k = Some v → v ≠ ""%string) as Hne2.
  { intros k v Hk. unfold env2 in Hk.
    destruct (apply_inputs_lookup (go_range seed_inputs inputs) env1 k)
      as [(key & value & _ & Hv & _ & Heq)|[_ Heq]]; rewrite Heq in Hk.
    - by injection Hk as <-.
    - by eapply Hne1. }
  assert (∀ k v, env3 !! k = Some v → v ≠ ""%string) as Hne3.
  { intros k v Hk. destruct (Hnew _ _ Hk) as [Hold|[_ Hlen]].
    - by eapply Hne2.
    - by eapply length_nonempty. }
  (* the default for DOMAIN keeps every entry *)
  assert (∀ k v, env3 !! k = Some v → env4 !! k = Some v) as Hkeep4.
  { intros k v Hk. unfold env4. destruct (env3 !! "DOMAIN"%string) eqn:Hdom; [done|].
    rewrite lookup_insert_ne; [done|]. intros <-. congruence. }
  assert (∀ k v, env4 !! k = Some v → v ≠ ""%string) as Hne4.
  { intros k v. unfold env4. destruct (env3 !! "DOMAIN"%string) eqn:Hdom; [apply Hne3|].
    rewrite lookup_insert. case_decide; [by intros [= <-]|apply Hne3]. }
  (* the first loop keeps every name that is set *)
  assert (∀ k, is_Some (env1 !! k) → is_Some (env2 !! k)) as Hdom2.
  { intros k Hk. unfold env2.
    destruct (apply_inputs_lookup (go_range seed_inputs inputs) env1 k)
      as [(key & value & _ & _ & _ & ->)|[_ ->]]; [by eexists|done]. }
  assert (∀ key value, inputs !! key = Some value → value ≠ ""%string →
            ∃ key' value', inputs !! key' = Some value' ∧ value' ≠ ""%string ∧
                           envKeyOf key' = envKeyOf key ∧
                           env4 !! envKeyOf key = Some value') as Huser.
  { intros key value Hin Hval.
    destruct (apply_inputs_lookup (go_range seed_inputs inputs) env1 (envKeyOf key))
      as [(key' & value' & Hin' & Hval' & Hkey' & Hlook)|[Hnone _]].
    - exists key', value'. apply elem_of_go_range in Hin'.
      repeat split; try done. apply Hkeep4, Hkeep. exact Hlook.
    - exfalso. eapply Hnone; [by apply elem_of_go_range|done..]. }
  split.
  - intros key input Hin Htype.
    destruct (Hpw key input) as [v Hv]; [by apply elem_of_go_range|done|].
    exists v. split; [by apply Hkeep4|by eapply Hne3].
  - intros k Hk.
    assert (is_Some (env1 !! k)) as Hk1.
    { unfold baseline_secrets in Hk. apply list_elem_of_In in Hk. simpl in Hk.
      destruct Hk as [<-|[<-|[<-|[]]]]; unfold env1; by simplify_map_eq. }
    destruct (Hdom2 _ Hk1) as [v Hv]. exists v.
    split; [by apply Hkeep4, Hkeep|by eapply Hne2].
  - exact Huser.
  - intros key value Hin Hval Honly.
    destruct (Huser key value Hin Hval) as (key' & value' & Hin' & Hval' & Hkey' & ->).
    f_equal. by eapply Honly.
Qed.

(** 41 bytes for the baseline secrets and 7 for each declared input
    are enough for [prepareEnvVars] to return. *)
Lemma prepareEnvVars_returns seed_inputs seed_detail detail inputs src :
  (41 + 7 * size (cd_Inputs detail) ≤ length src)%nat →
  ∃ env src', prepareEnvVars seed_inputs seed_detail detail inputs src = Done (env, src').
Proof.
  intros Hsrc.
  unfold prepareEnvVars, mbind, Rand_bind, mret, Rand_ret.
  rewrite (generatePassword_enough 16); [|lia|change (bytes_asked 16) with 9%nat; lia].
  change (bytes_asked 16) with 9%nat.
  rewrite (generatePassword_enough 12);
    [|lia|change (bytes_asked 12) with 7%nat; rewrite length_drop; lia].
  change (bytes_asked 12) with 7%nat.
  rewrite (generatePassword_enough 48);
    [|lia|change (bytes_asked 48) with 25%nat; rewrite !length_drop; lia].
  change (bytes_asked 48) with 25%nat.
  match goal with
  | |- context [generate_missing ?es ?e ?s] =>
      destruct (generate_missing_returns es e s) as (env & src' & -> & _)
  end.
  { rewrite (Permutation_length (go_range_perm _ _)), length_map_to_list.
    rewrite !length_drop. lia. }
  by eexists _, _.
Qed.

End EnvGuarantee.

(** C5, as stated, fails when two user inputs have one environment
    name: the keys [admin_password] and [admin-password] both translate
    to [ADMIN_PASSWORD], both have a non-empty value, and the returned set
    holds one of the two values under that name, here the one of
    [admin-password], so the value given for [admin_password] does not
    appear in the output. *)
Lemma prepareEnvVars_colliding_inputs :
  SampleRuntime.colliding_inputs !! "admin_password"%string = Some "s3cret"%string ∧
  envKeyOf (rt := SampleRuntime.runtime true) "admin_password" = "ADMIN_PASSWORD"%string ∧
  ∃ env src',
    prepareEnvVars (rt := SampleRuntime.runtime true) [] [] SampleRuntime.ghost
      SampleRuntime.colliding_inputs (replicate 41 x2a) = Done (env, src') ∧
    env !! "ADMIN_PASSWORD"%string = Some "hunter2"%string.
Proof.
  split; [vm_compute; reflexivity|]. split; [vm_compute; reflexivity|].
  eexists _, _. split; vm_compute; reflexivity.
Qed.

(** C5, amended.  For every software definition, every user-input map,
    every visiting order of the two maps and every secure source with 41
    bytes and 7 more for each declared input, [prepareEnvVars] returns an
    environment set in which every declared input of type password and
    each of [DB_PASSWORD], [ADMIN_PASSWORD], [SECRET_KEY] has a non-empty
    value; the environment name of every user input with a non-empty value
    holds the value of a user input with that name and a non-empty value,
    never a generated default; and it holds the input's own value when no
    other non-empty user input translates to the same name with a
    different value. *)
Theorem prepareEnvVars_guarantee `{rt : GoRuntime} (seed_inputs seed_detail : list nat)
    (detail : CatalogDetail) (inputs : gmap string string) (src : list byte) :
  (41 + 7 * size (cd_Inputs detail) ≤ length src)%nat →
  ∃ env src',
    prepareEnvVars seed_inputs seed_detail detail inputs src = Done (env, src') ∧
    (∀ key input,
       cd_Inputs detail !! key = Some input → ic_Type input = "password"%string →
       ∃ v, env !! envKeyOf key = Some v ∧ v ≠ ""%string) ∧
    (∀ k, k ∈ baseline_secrets → ∃ v, env !! k = Some v ∧ v ≠ ""%string) ∧
    (∀ key value,
       inputs !! key = Some value → value ≠ ""%string →
       ∃ key' value', inputs !! key' = Some value' ∧ value' ≠ ""%string ∧
                      envKeyOf key' = envKeyOf key ∧
                      env !! envKeyOf key = Some value') ∧
    (∀ key value,
       inputs !! key = Some value → value ≠ ""%string →
       (∀ key' value', inputs !! key' = Some value' → value' ≠ ""%string →
                       envKeyOf key' = envKeyOf key → value' = value) →
       env !! envKeyOf key = Some value).
Proof.
  intros Hsrc.
  destruct (prepareEnvVars_returns seed_inputs seed_detail detail inputs src Hsrc)
    as (env & src' & Hrun).
  exists env, src'. split; [done|].
  by destruct (prepareEnvVars_Done _ _ _ _ _ _ _ Hrun).
Qed.

Lemma prepareEnvVars_guarantee_witness :
  ∃ env src',
    prepareEnvVars (rt := SampleRuntime.runtime true) [] [] SampleRuntime.wiki
      {["domain"%string := "example.org"%string]} (replicate 55 x2a) = Done (env, src') ∧
    env !! "DOMAIN"%string = Some "example.org"%string ∧
    (∃ v, env !! "API_TOKEN"%string = Some v ∧ v ≠ ""%string).
Proof.
  destruct (prepareEnvVars_guarantee (rt := SampleRuntime.runtime true) [] []
              SampleRuntime.wiki {["domain"%string := "example.org"%string]}
              (replicate 55 x2a))
    as (env & src' & Hrun & Hpw & _ & _ & Hverb); [vm_compute; lia|].
  exists env, src'. split; [done|]. split.
  - apply (Hverb "domain"%string "example.org"%string); [done|done|].
    intros key' value' [_ <-]%lookup_singleton_Some _ _. done.
  - apply (Hpw "api-token"%string (SampleRuntime.text_input "password")); done.
Defined.

(** ** The deployment store *)

Ltac unfold_M :=
  unfold mbind, M_bind, mret, M_ret, get_svc, put_svc, panic, with_entropy,
    exec_Run, os_MkdirAll, os_WriteFile, os_RemoveAll, os_ReadFile, outside,
    OS.Run, OS.MkdirAll, OS.WriteFile, OS.ReadFile in *.

Section StoreFacts.
Context `{rt : GoRuntime}.

Lemma loadDeployments_run st :
  loadDeployments st =
    Done (tt, set_svc (set_deployments (loaded st) (svc st)) st).
Proof.
  unfold loadDeployments, loaded. unfold_M. simpl.
  destruct st as [[cp cat ds] w]; simpl.
  destruct (files w !! _) as [data|]; [|done].
  by destruct (json_Unmarshal data).
Qed.

Lemma saveDeployments_run answer st :
  saveDeployments answer st =
    Done (tt, set_world
                (let data := default ""%string
                               (json_MarshalIndent
                                  {| df_Deployments := deployments (svc st) |}) in
                 let w := emit (EvWriteFile (deployFile (svc st)) data) (world st) in
                 match answer with
                 | None => set_files (<[deployFile (svc st) := data]> (files w)) w
                 | Some _ => w
                 end) st).
Proof. reflexivity. Qed.

Lemma list_find_unknown_id id (ds : list LocalDeployment) :
  (∀ d, d ∈ ds → ld_ID d ≠ id) → list_find (λ d, ld_ID d = id) ds = None.
Proof. intros Hid. apply list_find_None, Forall_forall. exact Hid. Qed.

End StoreFacts.

(** C8.  Loading never fails.  Whatever the state file is, missing,
    unreadable as a document or a document, [loadDeployments] returns and
    leaves a list in the store; at the start of the process, where
    [NewService] runs it on the empty store, a missing file and a file
    that does not parse both leave the store empty, and a file that parses
    leaves its list. *)
Theorem loadDeployments_total `{rt : GoRuntime} (homeDir : string)
    (mkdir_answer : option string) (w : World) :
  (∀ st, ∃ st', loadDeployments st = Done (tt, st') ∧ world st' = world st) ∧
  ∃ st, NewService homeDir mkdir_answer w = Done (tt, st) ∧
    deployments (svc st) =
      match files w !! filepath_Join [filepath_Join [homeDir; ".opensourcer"%string];
                                      "deployments.json"%string] with
      | None => []
      | Some data =>
          match json_Unmarshal data with
          | None => []
          | Some file => df_Deployments file
          end
      end.
Proof.
  split.
  - intros st. eexists. by rewrite loadDeployments_run.
  - unfold NewService. unfold mbind at 1, M_bind.
    unfold os_MkdirAll, outside, OS.MkdirAll. cbn [world fst snd].
    rewrite loadDeployments_run. eexists. split; [done|].
    unfold loaded, deployFile. simpl. by destruct mkdir_answer.
Qed.






(** C10.  An identifier that no deployment of the store has.  Both
    [updateDeploymentStatus] and [removeDeployment] return with the whole
    state as it was: the list in memory is unchanged and nothing is
    written, the state file included. *)
Theorem unknown_id_is_noop `{rt : GoRuntime} (now : Time) (write_answer : option string)
    (id status : string) (st : State) :
  (∀ d, d ∈ deployments (svc st) → ld_ID d ≠ id) →
  updateDeploymentStatus now write_answer id status st = Done (tt, st) ∧
  removeDeployment write_answer id st = Done (tt, st).
Proof.
  intros Hid. apply list_find_unknown_id in Hid.
  unfold updateDeploymentStatus, removeDeployment. unfold_M. by rewrite Hid.
Qed.

Lemma unknown_id_is_noop_witness :
  updateDeploymentStatus (rt := SampleRuntime.runtime true) 30 None "id-9" "stopped"
    SampleRuntime.tracking_state = Done (tt, SampleRuntime.tracking_state) ∧
  removeDeployment (rt := SampleRuntime.runtime true) None "id-9"
    SampleRuntime.tracking_state = Done (tt, SampleRuntime.tracking_state).
Proof.
  apply (unknown_id_is_noop (rt := SampleRuntime.runtime true)).
  intros d Hd. apply list_elem_of_In in Hd. simpl in Hd.
  destruct Hd as [<-|[<-|[]]]; simpl; discriminate.
Defined.

(** ** The lifecycle operations *)

(** The recursive call of [copyDir] for a directory entry: after the
    [MkdirAll] of the destination the entry is copied as [copyDir] copies
    the directory. *)
Lemma copy_entry_dir `{rt : GoRuntime} src dst name mkdir_err listing w :
  copy_entry src dst (EntryDir name mkdir_err listing) w =
    (err ← OS.MkdirAll mkdir_err (filepath_Join [dst; name]);
     match err with
     | Some e => mret (Some e)
     | None => copyDir listing (filepath_Join [src; name]) (filepath_Join [dst; name])
     end) w.
Proof.
  simpl. unfold mbind, IO_bind.
  destruct (OS.MkdirAll _ _ w) as [[e|] w1]; [done|].
  destruct listing as [entries|e]; [|done]. simpl.
  revert w1; induction entries as [|entry rest IH]; intros w1; [done|].
  simpl. unfold mbind, IO_bind.
  destruct (copy_entry _ _ entry w1) as [[e|] w2]; [done|]. apply IH.
Qed.

(** A deploy of the example: the composition file copied from the
    catalog is the one read for the port, and the record is committed. *)
Example deploy_of_ghost :
  (λ st', (ld_Port <$> deployments (svc st'),
           files (world st') !! "/home/u/.opensourcer/deployments/ghost/assets/logo.svg"%string))
    <$> states_after (rt := SampleRuntime.runtime true)
          [OpDeploy (SampleRuntime.deploy_ok "id-1" 10) "ghost" SampleRuntime.ghost ∅]
          SampleRuntime.start_state
  = [([2368], Some "<svg/>"%string)].
Proof. vm_compute. reflexivity. Qed.

(** C7.  Deploy without an engine.  When the availability probe fails,
    [deployLocal] returns the error that docker is required; the probe is
    the only thing done to the outside: the store, the state file and all
    other files, and the set of directories are as before, so no record is
    committed and no deployment directory is created. *)
Theorem deployLocal_engine_unavailable `{rt : GoRuntime} (io : DeployIO)
    (software : string) (detail : CatalogDetail) (inputs : gmap string string)
    (st : State) (e : string) :
  exec_err (dio_probe io) = Some e →
  ∃ st',
    deployLocal io software detail inputs st =
      Done (Err "docker is required for local deployment: docker is not running or not installed",
            st') ∧
    svc st' = svc st ∧
    files (world st') = files (world st) ∧
    dirs (world st') = dirs (world st) ∧
    entropy (world st') = entropy (world st) ∧
    log (world st') = log (world st) ++ [EvExec ["docker"; "info"]%string ""%string []].
Proof.
  intros Hprobe. unfold deployLocal, checkDockerAvailable. unfold_M.
  rewrite Hprobe. eexists. split; [reflexivity|]. done.
Qed.

Lemma deployLocal_engine_unavailable_witness :
  ∃ st',
    deployLocal (rt := SampleRuntime.runtime true)
      (SampleRuntime.deploy_io SampleRuntime.failed "id-1" 10)
      "ghost" SampleRuntime.ghost ∅ SampleRuntime.start_state =
      Done (Err "docker is required for local deployment: docker is not running or not installed",
            st') ∧
    deployments (svc st') = [] ∧ dirs (world st') = ∅.
Proof.
  destruct (deployLocal_engine_unavailable (rt := SampleRuntime.runtime true)
              (SampleRuntime.deploy_io SampleRuntime.failed "id-1" 10)
              "ghost" SampleRuntime.ghost ∅ SampleRuntime.start_state "exit status 1")
    as (st' & Hrun & Hsvc & _ & Hdirs & _); [reflexivity|].
  exists st'. split; [exact Hrun|]. by rewrite Hsvc, Hdirs.
Defined.

(** C6.  Destroy with a failing engine.  For a tracked deployment whose
    tear-down command fails, [Destroy] returns the error of the command;
    the command is the only thing done to the outside: the store with the
    record, the state file and all other files, and the directories are as
    before, nothing is removed and nothing is written. *)
Theorem Destroy_engine_failure `{rt : GoRuntime} (io : DestroyIO) (software : string)
    (st : State) (i : nat) (d : LocalDeployment) (e : string) :
  software ≠ ""%string →
  list_find (λ d, ld_Software d = software) (deployments (svc st)) = Some (i, d) →
  exec_err (xio_run io) = Some e →
  ∃ st',
    Destroy io software st =
      Done (Err ("failed to destroy containers: " ++ e)%string, st') ∧
    svc st' = svc st ∧
    files (world st') = files (world st) ∧
    dirs (world st') = dirs (world st) ∧
    log (world st') =
      log (world st) ++
        [EvExec ["docker"; "compose"; "-f"; compose_path d; "down"; "-v"]%string
           (ld_Directory d) []].
Proof.
  intros Hsoftware Hfind Hrun.
  apply String.eqb_neq in Hsoftware.
  unfold Destroy. rewrite Hsoftware.
  unfold findDeployment, destroyDocker, deref. unfold_M. rewrite Hfind. simpl.
  apply list_find_Some in Hfind as (Hi & _ & _). rewrite Hi. simpl.
  rewrite Hrun. eexists. split; [reflexivity|]. done.
Qed.

Lemma Destroy_engine_failure_witness :
  ∃ st',
    Destroy (rt := SampleRuntime.runtime true)
      {| xio_run := SampleRuntime.failed; xio_remove := None; xio_save := None |}
      "wiki" SampleRuntime.tracking_state =
      Done (Err "failed to destroy containers: exit status 1", st') ∧
    deployments (svc st') = [SampleRuntime.ghost_record; SampleRuntime.wiki_record] ∧
    files (world st') = ∅ ∧ dirs (world st') = ∅.
Proof.
  destruct (Destroy_engine_failure (rt := SampleRuntime.runtime true)
              {| xio_run := SampleRuntime.failed; xio_remove := None; xio_save := None |}
              "wiki" SampleRuntime.tracking_state 1 SampleRuntime.wiki_record
              "exit status 1")
    as (st' & Hrun & Hsvc & Hfiles & Hdirs & _);
    [discriminate | vm_compute; reflexivity | reflexivity |].
  exists st'. split; [exact Hrun|]. by rewrite Hsvc, Hfiles, Hdirs.
Defined.

(** ** One record per slug *)

Section SlugFacts.
Context `{rt : GoRuntime}.
Implicit Types (ds : list LocalDeployment) (st : State).

Lemma records_of_app software ds1 ds2 :
  records_of software (ds1 ++ ds2) = records_of software ds1 ++ records_of software ds2.
Proof. apply filter_app. Qed.

Lemma records_of_alter software status now i ds :
  length (records_of software (alter (set_status status now) i ds)) =
  length (records_of software ds).
Proof.
  unfold records_of, alter.
  revert i; induction ds as [|d r IH]; intros [|i]; simpl; try done.
  - rewrite !filter_cons. simpl. by case_decide.
  - rewrite !filter_cons. case_decide; simpl; by rewrite IH.
Qed.

Lemma records_of_remove software i ds :
  (length (records_of software (take i ds ++ drop (S i) ds)) ≤
   length (records_of software ds))%nat.
Proof.
  rewrite <- (take_drop i ds) at 3. rewrite !records_of_app, !length_app.
  apply Nat.add_le_mono_l.
  destruct (ds !! i) as [d|] eqn:Hi.
  - rewrite (drop_S _ _ _ Hi). unfold records_of. rewrite filter_cons.
    case_decide; simpl; lia.
  - apply lookup_ge_None in Hi. rewrite !drop_ge by lia. done.
Qed.

Lemma records_of_untracked software st :
  ¬ tracked software st → records_of software (deployments (svc st)) = [].
Proof.
  unfold tracked. intros Hnone.
  destruct (list_find _ _) eqn:Hfind; [by destruct Hnone|].
  apply list_find_None in Hfind. unfold records_of.
  induction Hfind as [|d r Hd _ IH]; [done|].
  rewrite filter_cons. by case_decide.
Qed.

(** What each operation does to the list of the store. *)

Lemma saveDeployments_store answer st st' :
  saveDeployments answer st = Done (tt, st') → svc st' = svc st.
Proof. rewrite saveDeployments_run. by intros [= <-]. Qed.

Lemma updateDeploymentStatus_store now answer id status st st' :
  updateDeploymentStatus now answer id status st = Done (tt, st') →
  ∀ software,
    length (records_of software (deployments (svc st'))) =
    length (records_of software (deployments (svc st))).
Proof.
  unfold updateDeploymentStatus. unfold_M. simpl.
  destruct (list_find _ _) as [[i d]|]; [|by intros [= <-]].
  rewrite saveDeployments_run. intros [= <-] software. simpl.
  apply records_of_alter.
Qed.

Lemma removeDeployment_store answer id st st' :
  removeDeployment answer id st = Done (tt, st') →
  ∀ software,
    (length (records_of software (deployments (svc st'))) ≤
     length (records_of software (deployments (svc st))))%nat.
Proof.
  unfold removeDeployment. unfold_M. simpl.
  destruct (list_find _ _) as [[i d]|]; [|by intros [= <-]].
  rewrite saveDeployments_run. intros [= <-] software. simpl.
  apply records_of_remove.
Qed.

(** [uuid.New] takes sixteen bytes and returns; when the source has
    fewer, the process is terminated by the read or panics in [Must]. *)
Lemma uuid_New_run text src :
  uuid_New text src =
    if (16 <=? length src)%nat then Done (text, drop 16 src)
    else if rand_Read_aborts then Aborted else Panicked.
Proof.
  unfold uuid_New, mbind, Rand_bind, rand_lift, make_bytes, rand_Read, mret, Rand_ret.
  cbn [Z.ltb Z.compare]. rewrite length_replicate.
  change (Z.to_nat 16) with 16%nat.
  destruct (16 <=? length src)%nat; [done|]. by destruct rand_Read_aborts.
Qed.

(** A deploy leaves the list as it is, or appends one record of the
    slug, and does the latter exactly when it returns a value. *)
Lemma deployLocal_store io software detail inputs st r st' :
  deployLocal io software detail inputs st = Done (r, st') →
  (deployments (svc st') = deployments (svc st) ∧ ∃ msg, r = Err msg) ∨
  (∃ d out, r = Ok out ∧ ld_Software d = software ∧
            deployments (svc st') = deployments (svc st) ++ [d]).
Proof.
  unfold deployLocal, checkDockerAvailable, addDeployment. unfold_M. simpl.
  destruct (exec_err (dio_probe io)); [intros [= <- <-]; left; eauto|].
  destruct (dio_mkdir io); [intros [= <- <-]; left; eauto|].
  destruct (copyDir _ _ _ _) as [[e|] w1]; simpl; [intros [= <- <-]; left; eauto|].
  destruct (files w1 !! _); simpl; [|intros [= <- <-]; left; eauto].
  destruct (prepareEnvVars _ _ _ _ _) as [[envVars src']| |]; [|done..]. simpl.
  destruct (dio_env_write io); [intros [= <- <-]; left; eauto|].
  destruct (exec_err (dio_up io)); [intros [= <- <-]; left; eauto|].
  rewrite uuid_New_run.
  destruct (16 <=? _)%nat; [|by destruct rand_Read_aborts]. simpl.
  intros [= <- <-]. right.
  eexists _, _. split; [reflexivity|]. split; [|reflexivity]. reflexivity.
Qed.

Lemma Stop_store io software st r st' :
  Stop io software st = Done (r, st') →
  ∀ slug,
    length (records_of slug (deployments (svc st'))) =
    length (records_of slug (deployments (svc st))).
Proof.
  unfold Stop. destruct (String.eqb software ""); [by intros [= <- <-]|].
  unfold findDeployment, stopDocker, deref. unfold_M. simpl.
  destruct (list_find _ _) as [[i d0]|]; simpl; [|by intros [= <- <-]].
  destruct (deployments (svc st) !! i) as [d|]; [|done]. simpl.
  destruct (exec_err (sio_run io)); [by intros [= <- <-]|].
  destruct (updateDeploymentStatus _ _ _ _ _) as [[[] st1]| |] eqn:Hupd; [|done..].
  pose proof (updateDeploymentStatus_store _ _ _ _ _ _ Hupd) as Hlen.
  simpl in Hlen.
  destruct (deployments (svc st1) !! i); [|done].
  by intros [= <- <-].
Qed.

Lemma Start_store io software st r st' :
  Start io software st = Done (r, st') →
  ∀ slug,
    length (records_of slug (deployments (svc st'))) =
    length (records_of slug (deployments (svc st))).
Proof.
  unfold Start. destruct (String.eqb software ""); [by intros [= <- <-]|].
  unfold findDeployment, startDocker, deref. unfold_M. simpl.
  destruct (list_find _ _) as [[i d0]|]; simpl; [|by intros [= <- <-]].
  destruct (deployments (svc st) !! i) as [d|]; [|done]. simpl.
  destruct (exec_err (sio_run io)); [by intros [= <- <-]|].
  destruct (updateDeploymentStatus _ _ _ _ _) as [[[] st1]| |] eqn:Hupd; [|done..].
  pose proof (updateDeploymentStatus_store _ _ _ _ _ _ Hupd) as Hlen.
  simpl in Hlen.
  destruct (deployments (svc st1) !! i); [|done].
  by intros [= <- <-].
Qed.

Lemma Destroy_store io software st r st' :
  Destroy io software st = Done (r, st') →
  ∀ slug,
    (length (records_of slug (deployments (svc st'))) ≤
     length (records_of slug (deployments (svc st))))%nat.
Proof.
  unfold Destroy. destruct (String.eqb software ""); [by intros [= <- <-]|].
  unfold findDeployment, destroyDocker, deref. unfold_M. simpl.
  destruct (list_find _ _) as [[i d0]|]; simpl; [|by intros [= <- <-]].
  destruct (deployments (svc st) !! i) as [d|] eqn:Hi; [|done]. simpl.
  destruct (exec_err (xio_run io)); [by intros [= <- <-]|].
  destruct (OS.RemoveAll _ _ _) as [a w1]. simpl. rewrite Hi.
  destruct (removeDeployment _ _ _) as [[[] st1]| |] eqn:Hrem; [|done..].
  pose proof (removeDeployment_store _ _ _ _ Hrem) as Hlen. simpl in Hlen.
  by intros [= <- <-].
Qed.

Lemma Logs_store answer software st r st' :
  Logs answer software st = Done (r, st') → svc st' = svc st.
Proof.
  unfold Logs. destruct (String.eqb software ""); [by intros [= <- <-]|].
  unfold findDeployment, getDockerLogs, deref. unfold_M. simpl.
  destruct (list_find _ _) as [[i d0]|]; simpl; [|by intros [= <- <-]].
  destruct (deployments (svc st) !! i) as [d|]; [|done]. simpl.
  destruct (exec_err answer); by intros [= <- <-].
Qed.

(** A request keeps the invariant when it is not a deploy that returns a
    value for a tracked slug. *)
Lemma run_op_one_per_slug op st r st' :
  run_op op st = Done (r, st') →
  match op, r with
  | OpDeploy _ software _ _, Ok _ => ¬ tracked software st
  | _, _ => True
  end →
  one_per_slug (deployments (svc st)) → one_per_slug (deployments (svc st')).
Proof.
  intros Hrun Hguard Hinv slug. specialize (Hinv slug).
  destruct op as [io software detail inputs|io software|io software|io software
                 |answer software]; simpl in Hrun.
  - apply deployLocal_store in Hrun as [[-> _]|(d & out & -> & Hd & ->)]; [done|].
    rewrite records_of_app, length_app. unfold records_of at 2.
    rewrite filter_cons, filter_nil.
    case_decide as Hslug; simpl; [|lia].
    rewrite Hd in Hslug. subst slug.
    by rewrite (records_of_untracked _ _ Hguard).
  - by rewrite (Stop_store _ _ _ _ _ Hrun).
  - by rewrite (Start_store _ _ _ _ _ Hrun).
  - pose proof (Destroy_store _ _ _ _ _ Hrun slug). lia.
  - by rewrite (Logs_store _ _ _ _ _ Hrun).
Qed.

(** The invariant is one of the slugs of the list. *)
Lemma records_of_slugs software ds :
  length (records_of software ds) = length (filter (λ s, s = software) (slugs ds)).
Proof.
  unfold records_of, slugs. induction ds as [|d ds IH]; [done|].
  rewrite fmap_cons, !filter_cons. case_decide; simpl; by rewrite IH.
Qed.

Lemma one_per_slug_slugs ds ds' :
  slugs ds' = slugs ds → one_per_slug ds → one_per_slug ds'.
Proof.
  intros Hslugs Hinv software. specialize (Hinv software).
  by rewrite records_of_slugs, Hslugs, <- records_of_slugs.
Qed.

Lemma one_per_slug_nil : one_per_slug [].
Proof. intros software. simpl. lia. Qed.

(** Each run of [runs] is a run of its handler on the state [NewService]
    left. *)
Lemma runs_served rqs w :
  Forall (λ r, run_op (rq_op (run_request r)) (run_loaded r) =
                 Done (run_result r, run_final r)) (runs rqs w).
Proof.
  revert w; induction rqs as [|rq rest IH]; intros w; simpl; [done|].
  destruct (NewService _ _ w) as [[[] st]| |]; [|done..].
  destruct (run_op (rq_op rq) st) as [[r st']| |] eqn:Hrun; [|done..].
  constructor; [done|apply IH].
Qed.

Lemma runs_one_per_slug (rs : list Run) :
  Forall (λ r, run_op (rq_op (run_request r)) (run_loaded r) =
                 Done (run_result r, run_final r)) rs →
  starts_one_per_slug rs → Forall no_second_record rs → handed_over rs →
  Forall run_one_per_slug rs.
Proof.
  induction rs as [|r rest IH]; [done|].
  intros Hserved Hstart Hguard Hover.
  apply Forall_cons in Hserved as [Hrun Hserved].
  apply Forall_cons in Hguard as [Hr Hguard].
  destruct Hover as [Hnext Hover]. simpl in Hstart.
  assert (one_per_slug (deployments (svc (run_final r)))) as Hfinal.
  { eapply run_op_one_per_slug; [exact Hrun| |exact Hstart].
    unfold no_second_record in Hr.
    by destruct (rq_op (run_request r)), (run_result r). }
  constructor; [by split|]. apply IH; [done| |done..].
  destruct rest as [|next rest']; [done|]. simpl.
  destruct Hnext as [Heq|[Heq|Heq]].
  - by eapply one_per_slug_slugs.
  - by eapply one_per_slug_slugs.
  - rewrite Heq. apply one_per_slug_nil.
Qed.

End SlugFacts.

(** A deploy that returns a value has appended exactly one record of
    the slug to the store, tracked before or not. *)
Lemma deployLocal_appends `{rt : GoRuntime} io software detail inputs st out st' :
  deployLocal io software detail inputs st = Done (Ok out, st') →
  ∃ d, ld_Software d = software ∧
       deployments (svc st') = deployments (svc st) ++ [d].
Proof.
  intros Hrun.
  apply deployLocal_store in Hrun as [[_ [msg [=]]]|(d & out' & _ & Hd & Hds)].
  by exists d.
Qed.

(** C1, as stated, fails: [deployLocal] does not look the slug up before
    it appends.  Two runs of the program that deploy [ghost], both
    returning a value, the first on an outside without a state file: the
    first run loads the empty store and leaves one record of [ghost], the
    second loads that record from the state file and leaves two. *)
Lemma redeploy_adds_second_record :
  ∃ r1 r2 out1 out2,
    runs (rt := SampleRuntime.runtime true)
      [SampleMore.request
         (OpDeploy (SampleRuntime.deploy_ok "id-1" 10) "ghost" SampleRuntime.ghost ∅);
       SampleMore.request
         (OpDeploy (SampleRuntime.deploy_ok "id-2" 20) "ghost" SampleRuntime.ghost ∅)]
      SampleMore.first_world = [r1; r2] ∧
    deployments (svc (run_loaded r1)) = [] ∧
    run_result r1 = Ok out1 ∧
    length (records_of "ghost" (deployments (svc (run_final r1)))) = 1%nat ∧
    deployments (svc (run_loaded r2)) = deployments (svc (run_final r1)) ∧
    run_result r2 = Ok out2 ∧
    ld_ID <$> deployments (svc (run_final r2)) = ["id-1"; "id-2"]%string ∧
    length (records_of "ghost" (deployments (svc (run_final r2)))) = 2%nat.
Proof.
  eexists _, _, _, _. split; [vm_compute; reflexivity|].
  repeat split; vm_compute; reflexivity.
Qed.

(** C1, amended.  For every sequence of runs of the program, each run
    starting with [NewService], which loads the store from the state
    file, and serving one lifecycle request: when the store the first run
    loads has at most one record per slug (the empty store of a missing
    state file in particular), no run is a deploy that returns a value
    for a slug that has a record in the store as that run loaded it, and
    each run loads, slug for slug, what the run before it left in memory
    or, its write not having reached the state file, what that run had
    loaded itself, or nothing, then the store has at most one record per
    slug when each run has loaded it and when each run ends. *)
Theorem one_record_per_slug `{rt : GoRuntime} (rqs : list Request) (w : World) :
  starts_one_per_slug (runs rqs w) →
  Forall no_second_record (runs rqs w) →
  handed_over (runs rqs w) →
  Forall run_one_per_slug (runs rqs w).
Proof. apply runs_one_per_slug, runs_served. Qed.

Lemma one_record_per_slug_witness :
  Forall run_one_per_slug
    (runs (rt := SampleRuntime.runtime true)
       [SampleMore.request
          (OpDeploy (SampleRuntime.deploy_ok "id-1" 10) "ghost" SampleRuntime.ghost ∅);
        SampleMore.request
          (OpStop {| sio_run := SampleRuntime.ok; sio_now := 12; sio_save := None |}
             "ghost");
        SampleMore.request
          (OpDestroy {| xio_run := SampleRuntime.ok; xio_remove := None;
                        xio_save := None |} "ghost");
        SampleMore.request
          (OpDeploy (SampleRuntime.deploy_ok "id-2" 20) "ghost" SampleRuntime.ghost ∅)]
       SampleMore.first_world).
Proof.
  apply (one_record_per_slug (rt := SampleRuntime.runtime true)).
  - vm_compute. intros slug. lia.
  - vm_compute. repeat constructor; intros [x Hx]; discriminate.
  - vm_compute. repeat split; left; reflexivity.
Defined.

(** The four runs of the example all return: deploy, stop, destroy and
    deploy again load no, one, one and no record and leave one, one, no
    and one. *)
Example lifecycle_round :
  (λ r, (length (deployments (svc (run_loaded r))),
         length (deployments (svc (run_final r))))) <$>
    runs (rt := SampleRuntime.runtime true)
      [SampleMore.request
         (OpDeploy (SampleRuntime.deploy_ok "id-1" 10) "ghost" SampleRuntime.ghost ∅);
       SampleMore.request
         (OpStop {| sio_run := SampleRuntime.ok; sio_now := 12; sio_save := None |}
            "ghost");
       SampleMore.request
         (OpDestroy {| xio_run := SampleRuntime.ok; xio_remove := None;
                       xio_save := None |} "ghost");
       SampleMore.request
         (OpDeploy (SampleRuntime.deploy_ok "id-2" 20) "ghost" SampleRuntime.ghost ∅)]
      SampleMore.first_world
  = [(0, 1); (1, 1); (1, 0); (0, 1)]%nat.
Proof. vm_compute. reflexivity. Qed.

(** The error of the write of the state file is dropped, so the list in
    memory and the state file can part: a destroy whose write fails ends
    with no record in memory, the next run loads the record of [ghost]
    from the state file again, and a deploy of [ghost] in that run leaves
    two records of the slug. *)
Example destroy_unsaved_then_deploy :
  (λ r, (ld_ID <$> deployments (svc (run_loaded r)),
         ld_ID <$> deployments (svc (run_final r)))) <$>
    runs (rt := SampleRuntime.runtime true)
      [SampleMore.request
         (OpDeploy (SampleRuntime.deploy_ok "id-1" 10) "ghost" SampleRuntime.ghost ∅);
       SampleMore.request
         (OpDestroy {| xio_run := SampleRuntime.ok; xio_remove := None;
                       xio_save := Some "disk full"%string |} "ghost");
       SampleMore.request
         (OpDeploy (SampleRuntime.deploy_ok "id-2" 20) "ghost" SampleRuntime.ghost ∅)]
      SampleMore.first_world
  = [([], ["id-1"]); (["id-1"], []); (["id-1"], ["id-1"; "id-2"])]%string.
Proof. vm_compute. reflexivity. Qed.

(** * Further properties of the code *)

(** ** The store: append, update, remove *)

Section StoreMore.
Context `{rt : GoRuntime}.
Implicit Types (ds : list LocalDeployment) (st : State).

Lemma addDeployment_run answer d st :
  addDeployment answer d st =
    saveDeployments answer
      (set_svc (set_deployments (deployments (svc st) ++ [d]) (svc st)) st).
Proof. reflexivity. Qed.

Lemma updateDeploymentStatus_run now answer id status st :
  updateDeploymentStatus now answer id status st =
    match list_find (λ d, ld_ID d = id) (deployments (svc st)) with
    | Some (i, _) =>
        saveDeployments answer
          (set_svc (set_deployments
                      (alter (set_status status now) i (deployments (svc st)))
                      (svc st)) st)
    | None => Done (tt, st)
    end.
Proof.
  unfold updateDeploymentStatus. unfold_M.
  by destruct (list_find _ _) as [[i d]|].
Qed.

Lemma removeDeployment_run answer id st :
  removeDeployment answer id st =
    match list_find (λ d, ld_ID d = id) (deployments (svc st)) with
    | Some (i, _) =>
        saveDeployments answer
          (set_svc (set_deployments
                      (take i (deployments (svc st)) ++ drop (S i) (deployments (svc st)))
                      (svc st)) st)
    | None => Done (tt, st)
    end.
Proof.
  unfold removeDeployment. unfold_M.
  by destruct (list_find _ _) as [[i d]|].
Qed.

Lemma findDeployment_run software st :
  findDeployment software st =
    Done (fst <$> list_find (λ d, ld_Software d = software) (deployments (svc st)), st).
Proof. reflexivity. Qed.

(** The first record with a property, when some record has it. *)
Lemma list_find_first (P : LocalDeployment → Prop) `{!∀ d, Decision (P d)} ds d :
  d ∈ ds → P d →
  ∃ i d', list_find P ds = Some (i, d') ∧ ds !! i = Some d' ∧ P d' ∧
          ∀ j dj, ds !! j = Some dj → (j < i)%nat → ¬ P dj.
Proof.
  intros Hin HP.
  destruct (list_find P ds) as [[i d']|] eqn:Hfind.
  - apply list_find_Some in Hfind as (Hi & HPd & Hbefore). by exists i, d'.
  - apply list_find_None in Hfind. rewrite Forall_forall in Hfind.
    by destruct (Hfind d Hin).
Qed.

End StoreMore.

(** X1.  Append, then look up.  Whatever the write of the state file
    answers, [addDeployment] returns with the record appended at the end of
    the list, and [findDeployment] for the slug of the record then finds a
    record of that slug: the appended one, at the last index, when the slug
    had no record before, and the first record the slug already had, at its
    old index, when it had one (the appended record is then not the one
    found). *)
Theorem addDeployment_then_find `{rt : GoRuntime} (write_answer : option string)
    (d : LocalDeployment) (st : State) :
  ∃ st1 i d',
    addDeployment write_answer d st = Done (tt, st1) ∧
    deployments (svc st1) = deployments (svc st) ++ [d] ∧
    findDeployment (ld_Software d) st1 = Done (Some i, st1) ∧
    deployments (svc st1) !! i = Some d' ∧
    ld_Software d' = ld_Software d ∧
    (tracked (ld_Software d) st →
       (i < length (deployments (svc st)))%nat ∧ deployments (svc st) !! i = Some d') ∧
    (¬ tracked (ld_Software d) st → i = length (deployments (svc st)) ∧ d' = d).
Proof.
  assert (∃ st1, addDeployment write_answer d st = Done (tt, st1) ∧
                 deployments (svc st1) = deployments (svc st) ++ [d])
    as (st1 & Hadd & Hds).
  { rewrite addDeployment_run, saveDeployments_run. by eexists. }
  exists st1. rewrite Hadd, findDeployment_run, Hds.
  set (ds := deployments (svc st)). unfold tracked. fold ds.
  destruct (list_find (λ d0, ld_Software d0 = ld_Software d) ds) as [[i d']|] eqn:Hfind.
  - exists i, d'. rewrite (list_find_app_l _ _ _ _ _ Hfind). simpl.
    apply list_find_Some in Hfind as (Hi & Hd' & _).
    split; [done|]. split; [done|]. split; [done|].
    split; [by apply lookup_app_l_Some|]. split; [done|]. split.
    + intros _. split; [by eapply lookup_lt_Some|done].
    + intros Hnone. destruct Hnone. by eexists.
  - exists (length ds), d. rewrite (list_find_app_r _ _ _ Hfind). simpl.
    rewrite decide_True by done. simpl.
    split; [done|]. split; [done|]. split; [done|].
    split; [by rewrite lookup_app_r, Nat.sub_diag by lia|]. split; [done|]. split.
    + intros [x Hx]. done.
    + done.
Qed.

(** X2.  Removal by identifier.  When some record of the store has the
    identifier, [removeDeployment] returns with exactly the first such
    record taken out of the list, all others kept in their order, so the
    list is one shorter; when the identifiers of the store are pairwise
    different, no record with the identifier is left. *)
Theorem removeDeployment_known `{rt : GoRuntime} (write_answer : option string)
    (id : string) (st : State) (d0 : LocalDeployment) :
  d0 ∈ deployments (svc st) → ld_ID d0 = id →
  ∃ i d st1,
    deployments (svc st) !! i = Some d ∧ ld_ID d = id ∧
    (∀ j dj, deployments (svc st) !! j = Some dj → (j < i)%nat → ld_ID dj ≠ id) ∧
    removeDeployment write_answer id st = Done (tt, st1) ∧
    deployments (svc st1) = take i (deployments (svc st)) ++ drop (S i) (deployments (svc st)) ∧
    S (length (deployments (svc st1))) = length (deployments (svc st)) ∧
    (NoDup (ld_ID <$> deployments (svc st)) →
       ∀ d', d' ∈ deployments (svc st1) → ld_ID d' ≠ id).
Proof.
  intros Hin Hid.
  destruct (list_find_first (λ d, ld_ID d = id) _ d0 Hin Hid)
    as (i & d & Hfind & Hi & Hd & Hfirst).
  exists i, d. rewrite removeDeployment_run, Hfind, saveDeployments_run.
  eexists. cbn [svc set_world set_svc deployments set_deployments].
  split; [done|]. split; [done|]. split; [done|]. split; [done|]. split; [done|].
  cbn [svc set_world set_svc deployments set_deployments].
  set (ds := deployments (svc st)) in *.
  pose proof (lookup_lt_Some _ _ _ Hi) as Hlt.
  split.
  - rewrite length_app, length_take, length_drop. lia.
  - intros Hnodup d' Hd' Heq.
    rewrite <- (take_drop_middle ds i d Hi) in Hnodup.
    rewrite fmap_app, fmap_cons in Hnodup.
    apply NoDup_app in Hnodup as (_ & Hsep & Hrest).
    apply NoDup_cons in Hrest as [Hnotin _].
    apply elem_of_app in Hd' as [Hd'|Hd'].
    + apply (Hsep (ld_ID d')); [by apply list_elem_of_fmap_2|].
      rewrite Heq, <- Hd. left.
    + apply Hnotin. rewrite Hd, <- Heq. by apply list_elem_of_fmap_2.
Qed.

Lemma removeDeployment_known_witness :
  ∃ st1,
    removeDeployment (rt := SampleRuntime.runtime true) None "id-1"
      SampleRuntime.tracking_state = Done (tt, st1) ∧
    deployments (svc st1) = [SampleRuntime.wiki_record].
Proof.
  destruct (removeDeployment_known (rt := SampleRuntime.runtime true) None "id-1"
              SampleRuntime.tracking_state SampleRuntime.ghost_record)
    as (i & d & st1 & Hi & Hd & Hfirst & Hrun & Hds & _); [left | reflexivity |].
  exists st1. split; [exact Hrun|].
  destruct i as [|[|i]]; simpl in Hi; [by rewrite Hds| |done].
  injection Hi as <-. discriminate Hd.
Defined.

(** X3.  Status update by identifier.  When some record of the store
    has the identifier, [updateDeploymentStatus] returns with the first
    such record given the new status and the clock reading as its update
    time; its other seven fields, the length of the list and every other
    record are as before. *)
Theorem updateDeploymentStatus_known `{rt : GoRuntime} (now : Time)
    (write_answer : option string) (id status : string) (st : State)
    (d0 : LocalDeployment) :
  d0 ∈ deployments (svc st) → ld_ID d0 = id →
  ∃ i d d1 st1,
    deployments (svc st) !! i = Some d ∧ ld_ID d = id ∧
    (∀ j dj, deployments (svc st) !! j = Some dj → (j < i)%nat → ld_ID dj ≠ id) ∧
    updateDeploymentStatus now write_answer id status st = Done (tt, st1) ∧
    length (deployments (svc st1)) = length (deployments (svc st)) ∧
    deployments (svc st1) !! i = Some d1 ∧
    ld_Status d1 = status ∧ ld_UpdatedAt d1 = now ∧
    (ld_ID d1, ld_Software d1, ld_Target d1, ld_Directory d1, ld_Port d1,
     ld_Inputs d1, ld_CreatedAt d1) =
    (ld_ID d, ld_Software d, ld_Target d, ld_Directory d, ld_Port d,
     ld_Inputs d, ld_CreatedAt d) ∧
    (∀ k, k ≠ i → deployments (svc st1) !! k = deployments (svc st) !! k).
Proof.
  intros Hin Hid.
  destruct (list_find_first (λ d, ld_ID d = id) _ d0 Hin Hid)
    as (i & d & Hfind & Hi & Hd & Hfirst).
  exists i, d, (set_status status now d).
  rewrite updateDeploymentStatus_run, Hfind, saveDeployments_run.
  eexists. cbn [svc set_world set_svc deployments set_deployments].
  split; [done|]. split; [done|]. split; [done|]. split; [done|].
  cbn [svc set_world set_svc deployments set_deployments].
  split; [apply length_alter|].
  split; [by rewrite list_lookup_alter_eq, Hi|].
  split; [done|]. split; [done|]. split; [done|].
  intros k Hk. by apply list_lookup_alter_ne.
Qed.

Lemma updateDeploymentStatus_known_witness :
  ∃ st1,
    updateDeploymentStatus (rt := SampleRuntime.runtime true) 30 None "id-2" "running"
      SampleRuntime.tracking_state = Done (tt, st1) ∧
    ld_Status <$> deployments (svc st1) = ["running"; "running"]%string ∧
    ld_UpdatedAt <$> deployments (svc st1) = [10; 30].
Proof.
  destruct (updateDeploymentStatus_known (rt := SampleRuntime.runtime true) 30 None
              "id-2" "running" SampleRuntime.tracking_state SampleRuntime.wiki_record)
    as (i & d & d1 & st1 & Hi & Hd & _ & Hrun & _); [right; left | reflexivity |].
  exists st1. split; [exact Hrun|].
  vm_compute in Hrun. injection Hrun as <-. split; reflexivity.
Defined.

(** X4.  The state file follows the list.  From a state whose state
    file holds the document of the list in memory, every store mutation
    whose write succeeds, [addDeployment], [updateDeploymentStatus] and
    [removeDeployment] for every identifier, known or not, returns in a
    state whose state file again holds the document of the list in memory. *)
Theorem store_mutations_reconcile `{rt : GoRuntime} (st : State) :
  reconciled st →
  (∀ d, ∃ st1, addDeployment None d st = Done (tt, st1) ∧ reconciled st1) ∧
  (∀ now id status,
     ∃ st1, updateDeploymentStatus now None id status st = Done (tt, st1) ∧
            reconciled st1) ∧
  (∀ id, ∃ st1, removeDeployment None id st = Done (tt, st1) ∧ reconciled st1).
Proof.
  intros Hst.
  assert (∀ ds, ∃ st1,
            saveDeployments None (set_svc (set_deployments ds (svc st)) st)
              = Done (tt, st1) ∧ reconciled st1) as Hsave.
  { intros ds. rewrite saveDeployments_run. eexists. split; [done|].
    unfold reconciled. cbn. apply lookup_insert_eq. }
  split; [|split].
  - intros d. rewrite addDeployment_run. apply Hsave.
  - intros now id status. rewrite updateDeploymentStatus_run.
    destruct (list_find _ _) as [[i d]|]; [apply Hsave|by exists st].
  - intros id. rewrite removeDeployment_run.
    destruct (list_find _ _) as [[i d]|]; [apply Hsave|by exists st].
Qed.

Lemma store_mutations_reconcile_witness :
  ∃ st1,
    removeDeployment (rt := SampleRuntime.runtime true) None "id-1"
      SampleMore.saved_state = Done (tt, st1) ∧
    reconciled (rt := SampleRuntime.runtime true) st1.
Proof.
  destruct (store_mutations_reconcile (rt := SampleRuntime.runtime true)
              SampleMore.saved_state) as (_ & _ & Hremove);
    [vm_compute; reflexivity|].
  apply Hremove.
Defined.

(** X5.  A list that cannot be marshalled.  [saveDeployments] drops the
    error of [MarshalIndent] and writes the empty data it got: the state
    file is then empty while the list in memory is kept, and, the empty
    text not being a document, a service started later on these files has
    an empty store. *)
Theorem saveDeployments_without_document `{rt : GoRuntime} (st : State) :
  json_MarshalIndent {| df_Deployments := deployments (svc st) |} = None →
  json_Unmarshal "" = None →
  ∃ st1,
    saveDeployments None st = Done (tt, st1) ∧
    svc st1 = svc st ∧
    files (world st1) !! deployFile (svc st) = Some ""%string ∧
    ∀ st2,
      configPath (svc st2) = configPath (svc st) →
      files (world st2) = files (world st1) →
      deployments (svc st2) = [] →
      ∃ st3, loadDeployments st2 = Done (tt, st3) ∧ deployments (svc st3) = [].
Proof.
  intros Hmarshal Hempty.
  rewrite saveDeployments_run, Hmarshal. eexists. split; [done|]. cbn.
  split; [done|]. split; [apply lookup_insert_eq|].
  intros st2 Hpath Hfiles Hds. rewrite loadDeployments_run.
  eexists. split; [done|]. cbn. unfold loaded, deployFile.
  rewrite Hfiles, Hpath. cbn. unfold deployFile.
  by rewrite lookup_insert_eq, Hempty.
Qed.

Lemma saveDeployments_without_document_witness :
  ∃ st1,
    saveDeployments (rt := SampleMore.runtime_without_marshal) None
      SampleRuntime.tracking_state = Done (tt, st1) ∧
    length (deployments (svc st1)) = 2%nat ∧
    ∃ st3,
      loadDeployments (rt := SampleMore.runtime_without_marshal)
        {| svc := svc SampleRuntime.start_state; world := world st1 |} = Done (tt, st3) ∧
      deployments (svc st3) = [].
Proof.
  destruct (saveDeployments_without_document (rt := SampleMore.runtime_without_marshal)
              SampleRuntime.tracking_state) as (st1 & Hsave & Hsvc & _ & Hload);
    [reflexivity | vm_compute; reflexivity |].
  exists st1. split; [exact Hsave|]. split; [by rewrite Hsvc|].
  apply (Hload {| svc := svc SampleRuntime.start_state; world := world st1 |}); done.
Defined.

(** ** The handlers: what is refused, what fails, what succeeds *)

(** X6.  A slug that is not tracked, or no slug at all.  [Stop], [Start],
    [Destroy] and [Logs] return their usage error for the empty argument
    and the not-found error for a slug without a record, and return the
    state exactly as it was: no command is run, nothing is written and no
    record is touched. *)
Theorem untracked_slug_refused `{rt : GoRuntime} (software : string) (st : State)
    (sio : StatusIO) (xio : DestroyIO) (logs_answer : ExecResult) :
  software = ""%string ∨ ¬ tracked software st →
  Stop sio software st =
    Done (if String.eqb software "" then Err "usage: opensourcer stop <software>"
          else not_found software, st) ∧
  Start sio software st =
    Done (if String.eqb software "" then Err "usage: opensourcer start <software>"
          else not_found software, st) ∧
  Destroy xio software st =
    Done (if String.eqb software "" then Err "usage: opensourcer destroy <software>"
          else not_found software, st) ∧
  Logs logs_answer software st =
    Done (if String.eqb software "" then Err "usage: opensourcer logs <software>"
          else not_found software, st).
Proof.
  intros Hslug. unfold Stop, Start, Destroy, Logs.
  destruct (String.eqb software "") eqn:Hempty; [done|].
  destruct Hslug as [->|Hnone]; [done|].
  unfold tracked in Hnone.
  unfold findDeployment. unfold_M. cbn.
  destruct (list_find _ _) as [[i d]|]; [|done].
  destruct Hnone. by eexists.
Qed.

Lemma untracked_slug_refused_witness :
  Stop (rt := SampleRuntime.runtime true)
    {| sio_run := SampleRuntime.ok; sio_now := 12; sio_save := None |} "gitea"
    SampleRuntime.tracking_state =
    Done (Err "deployment 'gitea' not found", SampleRuntime.tracking_state) ∧
  Destroy (rt := SampleRuntime.runtime true)
    {| xio_run := SampleRuntime.ok; xio_remove := None; xio_save := None |} "gitea"
    SampleRuntime.tracking_state =
    Done (Err "deployment 'gitea' not found", SampleRuntime.tracking_state).
Proof.
  destruct (untracked_slug_refused (rt := SampleRuntime.runtime true) "gitea"
              SampleRuntime.tracking_state
              {| sio_run := SampleRuntime.ok; sio_now := 12; sio_save := None |}
              {| xio_run := SampleRuntime.ok; xio_remove := None; xio_save := None |}
              SampleRuntime.ok) as (Hstop & _ & Hdestroy & _).
  - right. intros [x Hx]. vm_compute in Hx. discriminate.
  - split; [exact Hstop|exact Hdestroy].
Defined.

(** X7.  Stop and start with a failing engine.  For a tracked slug whose
    [stop] (or [start]) command fails, [Stop] (or [Start]) returns the
    error of the command; the command is the only thing done: the store
    keeps the record with its old status, and files and directories are as
    before. *)
Theorem Stop_Start_engine_failure `{rt : GoRuntime} (io : StatusIO) (software : string)
    (st : State) (i : nat) (d : LocalDeployment) (e : string) :
  software ≠ ""%string →
  list_find (λ d, ld_Software d = software) (deployments (svc st)) = Some (i, d) →
  exec_err (sio_run io) = Some e →
  (∃ st',
     Stop io software st = Done (Err ("failed to stop containers: " ++ e)%string, st') ∧
     svc st' = svc st ∧ files (world st') = files (world st) ∧
     dirs (world st') = dirs (world st) ∧
     log (world st') =
       log (world st) ++
         [EvExec ["docker"; "compose"; "-f"; compose_path d; "stop"]%string
            (ld_Directory d) []]) ∧
  (∃ st',
     Start io software st = Done (Err ("failed to start containers: " ++ e)%string, st') ∧
     svc st' = svc st ∧ files (world st') = files (world st) ∧
     dirs (world st') = dirs (world st) ∧
     log (world st') =
       log (world st) ++
         [EvExec ["docker"; "compose"; "-f"; compose_path d; "start"]%string
            (ld_Directory d) []]).
Proof.
  intros Hsoftware Hfind Hrun.
  apply String.eqb_neq in Hsoftware.
  unfold Stop, Start. rewrite Hsoftware.
  unfold findDeployment, stopDocker, startDocker, deref. unfold_M. rewrite Hfind. cbn.
  apply list_find_Some in Hfind as (Hi & _ & _). rewrite Hi. cbn.
  rewrite Hrun. split; eexists; (split; [reflexivity|done]).
Qed.

Lemma Stop_Start_engine_failure_witness :
  ∃ st',
    Stop (rt := SampleRuntime.runtime true)
      {| sio_run := SampleRuntime.failed; sio_now := 12; sio_save := None |} "ghost"
      SampleRuntime.tracking_state =
      Done (Err "failed to stop containers: exit status 1", st') ∧
    deployments (svc st') = [SampleRuntime.ghost_record; SampleRuntime.wiki_record].
Proof.
  destruct (Stop_Start_engine_failure (rt := SampleRuntime.runtime true)
              {| sio_run := SampleRuntime.failed; sio_now := 12; sio_save := None |}
              "ghost" SampleRuntime.tracking_state 0 SampleRuntime.ghost_record
              "exit status 1")
    as [(st' & Hrun & Hsvc & _) _];
    [discriminate | vm_compute; reflexivity | reflexivity |].
  exists st'. split; [exact Hrun|]. by rewrite Hsvc.
Defined.

Section HandlerFacts.
Context `{rt : GoRuntime}.
Implicit Types (ds : list LocalDeployment) (st : State).

(** The record an identifier-based store operation acts on, for the
    identifier of the record at index [i]. *)
Lemma first_with_id ds i d :
  ds !! i = Some d →
  ∃ j dj, list_find (λ x, ld_ID x = ld_ID d) ds = Some (j, dj) ∧ (j ≤ i)%nat ∧
          (first_of_its_id i d ds → j = i).
Proof.
  intros Hi.
  destruct (list_find_first (λ x, ld_ID x = ld_ID d) ds d) as (j & dj & Hfind & Hj & Hdj & Hfirst);
    [by eapply list_elem_of_lookup_2|done|].
  exists j, dj. split; [done|].
  assert (j ≤ i)%nat as Hle.
  { destruct (decide (j ≤ i)%nat) as [|Hgt]; [done|].
    destruct (Hfirst i d Hi); [lia|done]. }
  split; [done|]. intros Hown.
  destruct (decide (j = i)) as [|Hne]; [done|].
  destruct (Hown j dj Hj); [lia|done].
Qed.



End HandlerFacts.

(** X8.  Stop and start that succeed.  For a tracked slug whose command
    succeeds, [Stop] (or [Start]) returns a value, and the first record of
    the store that has the identifier of the slug's record, which is the
    slug's own record when no earlier record shares its identifier, has
    the status [stopped] (or [running]) and the clock reading as update
    time; the command and the write of the state file are all that was
    done to the outside. *)
Theorem Stop_Start_success `{rt : GoRuntime} (io : StatusIO) (software : string)
    (st : State) (i : nat) (d : LocalDeployment) :
  software ≠ ""%string →
  list_find (λ d, ld_Software d = software) (deployments (svc st)) = Some (i, d) →
  exec_err (sio_run io) = None →
  (∃ out st', Stop io software st = Done (Ok out, st') ∧
              status_set "stop" "stopped" io i d st st') ∧
  (∃ out st', Start io software st = Done (Ok out, st') ∧
              status_set "start" "running" io i d st st').
Proof.
  intros Hsoftware Hfind Hrun.
  apply String.eqb_neq in Hsoftware.
  pose proof Hfind as (Hi & _ & _)%list_find_Some.
  destruct (first_with_id _ _ _ Hi) as (j & dj & Hid & Hle & Hown).
  pose proof (lookup_lt_Some _ _ _ Hi) as Hlt.
  unfold Stop, Start. rewrite Hsoftware.
  unfold findDeployment, stopDocker, startDocker, deref. unfold_M.
  rewrite Hfind. cbn. rewrite Hi. cbn. rewrite Hrun.
  rewrite !updateDeploymentStatus_run. cbn. rewrite Hid.
  rewrite !saveDeployments_run. cbn.
  rewrite !list_lookup_alter, Hi.
  split.
  - destruct (decide (j = i)) as [->|Hne]; rewrite ?Hi; cbn;
      (eexists _, _; split; [reflexivity|]; unfold status_set;
       match goal with
       | H : list_find _ _ = Some (?j', ?dj') |- ∃ _ _, list_find _ _ = _ ∧ _ =>
           exists j', dj'
       end;
       destruct (sio_save io); cbn; rewrite <- ?app_assoc; by repeat split).
  - destruct (decide (j = i)) as [->|Hne]; rewrite ?Hi; cbn;
      (eexists _, _; split; [reflexivity|]; unfold status_set;
       match goal with
       | H : list_find _ _ = Some (?j', ?dj') |- ∃ _ _, list_find _ _ = _ ∧ _ =>
           exists j', dj'
       end;
       destruct (sio_save io); cbn; rewrite <- ?app_assoc; by repeat split).
Qed.

Lemma Stop_Start_success_witness :
  ∃ out st',
    Stop (rt := SampleRuntime.runtime true)
      {| sio_run := SampleRuntime.ok; sio_now := 12; sio_save := None |} "ghost"
      SampleRuntime.tracking_state = Done (Ok out, st') ∧
    ld_Status <$> deployments (svc st') = ["stopped"; "stopped"]%string ∧
    ld_UpdatedAt <$> deployments (svc st') = [12; 25].
Proof.
  destruct (Stop_Start_success (rt := SampleRuntime.runtime true)
              {| sio_run := SampleRuntime.ok; sio_now := 12; sio_save := None |}
              "ghost" SampleRuntime.tracking_state 0 SampleRuntime.ghost_record)
    as [(out & st' & Hrun & j & dj & Hj & _ & _ & Hds & _) _];
    [discriminate | vm_compute; reflexivity | reflexivity |].
  exists out, st'. split; [exact Hrun|]. rewrite Hds.
  vm_compute in Hj. injection Hj as <- _. split; reflexivity.
Defined.




(** ** Copying a catalog entry *)

Section CopyFacts.
Context `{rt : GoRuntime}.

(** Induction on the tree of an entry. *)
Lemma DirEntry_tree_ind (P : DirEntry → Prop) :
  (∀ name read write_err, P (EntryFile name read write_err)) →
  (∀ name mkdir_err err, P (EntryDir name mkdir_err (Failed err))) →
  (∀ name mkdir_err entries,
     Forall P entries → P (EntryDir name mkdir_err (Fine entries))) →
  ∀ entry, P entry.
Proof.
  intros Hfile Hfailed Hdir. fix IH 1.
  intros [name read write_err|name mkdir_err [entries|err]].
  - apply Hfile.
  - apply Hdir. revert entries. fix IHentries 1.
    intros [|entry entries]; constructor; [apply IH|apply IHentries].
  - apply Hfailed.
Qed.

Lemma only_adds_refl w : only_adds w w.
Proof.
  split; [done|]. split; [done|]. split; [done|].
  exists []. by rewrite app_nil_r.
Qed.

Lemma only_adds_trans w1 w2 w3 : only_adds w1 w2 → only_adds w2 w3 → only_adds w1 w3.
Proof.
  intros (Hd1 & Hf1 & He1 & evs1 & Hl1 & Hc1) (Hd2 & Hf2 & He2 & evs2 & Hl2 & Hc2).
  split; [set_solver|]. split; [set_solver|]. split; [congruence|].
  exists (evs1 ++ evs2). split.
  - by rewrite Hl2, Hl1, app_assoc.
  - by rewrite forallb_app, Hc1, Hc2.
Qed.

Lemma MkdirAll_only_adds err path w : only_adds w (OS.MkdirAll err path w).2.
Proof.
  unfold only_adds, OS.MkdirAll, emit, set_dirs. destruct err; cbn.
  - split; [done|]. split; [done|]. split; [done|]. by exists [EvMkdirAll path].
  - split; [set_solver|]. split; [done|]. split; [done|]. by exists [EvMkdirAll path].
Qed.

Lemma WriteFile_only_adds err path data w :
  only_adds w (OS.WriteFile err path data w).2.
Proof.
  unfold only_adds, OS.WriteFile, emit, set_files. destruct err; cbn.
  - split; [done|]. split; [done|]. split; [done|]. by exists [EvWriteFile path data].
  - split; [done|]. split; [rewrite dom_insert; set_solver|]. split; [done|].
    by exists [EvWriteFile path data].
Qed.

Lemma copy_entries_only_adds_from entries :
  Forall (λ entry, ∀ src dst w, only_adds w (copy_entry src dst entry w).2) entries →
  ∀ src dst w, only_adds w (copy_entries src dst entries w).2.
Proof.
  induction 1 as [|entry rest Hentry _ IH]; intros src dst w; cbn.
  { apply only_adds_refl. }
  unfold mbind, IO_bind. specialize (Hentry src dst w).
  destruct (copy_entry src dst entry w) as [[e|] w1]; [exact Hentry|].
  eapply only_adds_trans; [exact Hentry|apply IH].
Qed.

Lemma copy_entry_only_adds entry :
  ∀ src dst w, only_adds w (copy_entry src dst entry w).2.
Proof.
  induction entry as [name read write_err|name mkdir_err err|name mkdir_err entries IH]
    using DirEntry_tree_ind; intros src dst w.
  - cbn. destruct read; [apply WriteFile_only_adds|apply only_adds_refl].
  - rewrite copy_entry_dir. unfold mbind, IO_bind.
    pose proof (MkdirAll_only_adds mkdir_err (filepath_Join [dst; name]) w) as Hmk.
    destruct (OS.MkdirAll _ _ w) as [[e|] w1]; exact Hmk.
  - rewrite copy_entry_dir. unfold mbind, IO_bind.
    pose proof (MkdirAll_only_adds mkdir_err (filepath_Join [dst; name]) w) as Hmk.
    destruct (OS.MkdirAll _ _ w) as [[e|] w1]; [exact Hmk|].
    eapply only_adds_trans; [exact Hmk|]. by apply copy_entries_only_adds_from.
Qed.

Lemma copy_entries_only_adds entries src dst w :
  only_adds w (copy_entries src dst entries w).2.
Proof.
  apply copy_entries_only_adds_from, Forall_forall. intros entry _.
  apply copy_entry_only_adds.
Qed.

Lemma copyDir_adds listing src dst w : only_adds w (copyDir listing src dst w).2.
Proof.
  destruct listing as [entries|err]; [apply copy_entries_only_adds|apply only_adds_refl].
Qed.

Lemma copy_entries_fine_from entries :
  Forall (λ entry, ∀ src dst w,
            (copy_entry src dst entry w).1 = None ↔ entry_fine entry = true) entries →
  ∀ src dst w,
    (copy_entries src dst entries w).1 = None ↔ forallb entry_fine entries = true.
Proof.
  induction 1 as [|entry rest Hentry _ IH]; intros src dst w; cbn; [done|].
  unfold mbind, IO_bind. specialize (Hentry src dst w).
  destruct (copy_entry src dst entry w) as [[e|] w1]; cbn in *.
  - destruct (entry_fine entry); [|done]. by destruct Hentry as [_ Hentry]; specialize (Hentry eq_refl).
  - destruct Hentry as [Hentry _]. rewrite (Hentry eq_refl). apply IH.
Qed.

Lemma copy_entry_fine entry :
  ∀ src dst w, (copy_entry src dst entry w).1 = None ↔ entry_fine entry = true.
Proof.
  induction entry as [name read write_err|name mkdir_err err|name mkdir_err entries IH]
    using DirEntry_tree_ind; intros src dst w.
  - cbn. destruct read as [data|err]; [|done]. by destruct write_err.
  - rewrite copy_entry_dir. unfold mbind, IO_bind. cbn. by destruct mkdir_err.
  - rewrite copy_entry_dir. unfold mbind, IO_bind. cbn.
    destruct mkdir_err; [done|]. by apply copy_entries_fine_from.
Qed.

Lemma copyDir_fine listing src dst w :
  (copyDir listing src dst w).1 = None ↔
  ∃ entries, listing = Fine entries ∧ forallb entry_fine entries = true.
Proof.
  destruct listing as [entries|err]; cbn.
  - rewrite (copy_entries_fine_from entries).
    + split; [intros ?; by exists entries|by intros (? & [= <-] & ?)].
    + apply Forall_forall. intros entry _. apply copy_entry_fine.
  - split; [done|by intros (? & [=] & _)].
Qed.

End CopyFacts.

(** X11.  [copyDir] only adds.  Whatever the listing of the source and
    whatever the outside answers, a copy makes directories and writes
    files and does nothing else: every directory and every file that was
    there before is there after, no command is run, nothing is removed
    and the random source is not read; this holds at every depth of the
    recursion and also when the copy stops at an error. *)
Theorem copyDir_only_adds `{rt : GoRuntime} (listing : answer (list DirEntry))
    (src dst : string) (w : World) :
  only_adds w (copyDir listing src dst w).2.
Proof. apply copyDir_adds. Qed.

(** X12.  [copyDir] reports every failure.  The copy returns no error
    exactly when [os.ReadDir] of the source succeeded and every read,
    write, [MkdirAll] and [os.ReadDir] in the tree below it succeeded:
    no error of a file or of a nested directory is dropped. *)
Theorem copyDir_succeeds_iff `{rt : GoRuntime} (listing : answer (list DirEntry))
    (src dst : string) (w : World) :
  (copyDir listing src dst w).1 = None ↔
  ∃ entries, listing = Fine entries ∧ forallb entry_fine entries = true.
Proof. apply copyDir_fine. Qed.

(** ** How a request can end *)

Section NoPanic.
Context `{rt : GoRuntime}.

Lemma generatePassword_outcome length src :
  0 ≤ length →
  (∃ s src', generatePassword length src = Done (s, src')) ∨
  (generatePassword length src = Aborted ∧ rand_Read_aborts = true).
Proof.
  intros Hlen.
  destruct (decide (bytes_asked length ≤ List.length src)%nat) as [Hle|Hgt].
  - left. rewrite generatePassword_enough by done. by eexists _, _.
  - rewrite generatePassword_short by (done || lia).
    destruct rand_Read_aborts; [by right|left; by eexists _, _].
Qed.

Lemma generate_missing_outcome entries envVars src :
  (∃ env src', generate_missing entries envVars src = Done (env, src')) ∨
  (generate_missing entries envVars src = Aborted ∧ rand_Read_aborts = true).
Proof.
  revert envVars src; induction entries as [|[key input] rest IH];
    intros envVars src; simpl.
  { left. by eexists _, _. }
  destruct (envVars !! envKeyOf key); [apply IH|].
  destruct (String.eqb (ic_Type input) "password"); [|apply IH].
  unfold mbind, Rand_bind.
  destruct (generatePassword_outcome 12 src) as [(p & src1 & ->)|[-> Hrt]];
    [lia|apply IH|by right].
Qed.

Lemma prepareEnvVars_outcome seed_inputs seed_detail detail inputs src :
  (∃ env src', prepareEnvVars seed_inputs seed_detail detail inputs src = Done (env, src')) ∨
  (prepareEnvVars seed_inputs seed_detail detail inputs src = Aborted ∧
   rand_Read_aborts = true).
Proof.
  unfold prepareEnvVars, mbind, Rand_bind, mret, Rand_ret.
  destruct (generatePassword_outcome 16 src) as [(db & s1 & ->)|[-> Hrt]];
    [lia| |by right].
  destruct (generatePassword_outcome 12 s1) as [(admin & s2 & ->)|[-> Hrt]];
    [lia| |by right].
  destruct (generatePassword_outcome 48 s2) as [(secret & s3 & ->)|[-> Hrt]];
    [lia| |by right].
  match goal with
  | |- context [generate_missing ?es ?e ?s] =>
      destruct (generate_missing_outcome es e s) as [(env & s4 & ->)|[-> Hrt]]
  end; [left; by eexists _, _|by right].
Qed.

(** With the bytes of the baseline secrets, seven for each declared
    input and [k] more in the source, [prepareEnvVars] returns and leaves
    [k] bytes. *)
Lemma prepareEnvVars_leaves seed_inputs seed_detail detail inputs src k :
  (41 + 7 * size (cd_Inputs detail) + k ≤ length src)%nat →
  ∃ env src', prepareEnvVars seed_inputs seed_detail detail inputs src = Done (env, src') ∧
              (k ≤ length src')%nat.
Proof.
  intros Hsrc.
  unfold prepareEnvVars, mbind, Rand_bind, mret, Rand_ret.
  rewrite (generatePassword_enough 16); [|lia|change (bytes_asked 16) with 9%nat; lia].
  change (bytes_asked 16) with 9%nat.
  rewrite (generatePassword_enough 12);
    [|lia|change (bytes_asked 12) with 7%nat; rewrite length_drop; lia].
  change (bytes_asked 12) with 7%nat.
  rewrite (generatePassword_enough 48);
    [|lia|change (bytes_asked 48) with 25%nat; rewrite !length_drop; lia].
  change (bytes_asked 48) with 25%nat.
  match goal with
  | |- context [generate_missing ?es ?e ?s] =>
      destruct (generate_missing_returns es e s) as (env & src' & -> & Hleft)
  end.
  { rewrite (Permutation_length (go_range_perm _ _)), length_map_to_list.
    rewrite !length_drop. lia. }
  eexists _, _. split; [done|].
  rewrite (Permutation_length (go_range_perm _ _)), length_map_to_list in Hleft.
  rewrite !length_drop in Hleft. lia.
Qed.

Lemma deployLocal_outcome io software detail inputs st :
  ((57 + 7 * size (cd_Inputs detail) ≤ length (entropy (world st)))%nat →
   ∃ r st', deployLocal io software detail inputs st = Done (r, st')) ∧
  (deployLocal io software detail inputs st = Aborted → rand_Read_aborts = true) ∧
  (deployLocal io software detail inputs st = Panicked →
   rand_Read_aborts = false ∧ exec_err (dio_probe io) = None ∧ dio_mkdir io = None ∧
   dio_env_write io = None ∧ exec_err (dio_up io) = None).
Proof.
  pose proof (prepareEnvVars_leaves (dio_seed_inputs io) (dio_seed_detail io) detail
                inputs (entropy (world st)) 16) as Hleaves.
  remember (57 + 7 * size (cd_Inputs detail))%nat as need eqn:Hneed.
  assert ((need ≤ length (entropy (world st)))%nat →
          ∃ env src',
            prepareEnvVars (dio_seed_inputs io) (dio_seed_detail io) detail inputs
              (entropy (world st)) = Done (env, src') ∧ (16 ≤ length src')%nat)
    as Henough by (intros Hsrc; apply Hleaves; lia).
  clear Hleaves Hneed.
  unfold deployLocal, checkDockerAvailable, addDeployment. unfold_M. simpl.
  destruct (exec_err (dio_probe io)); [by split; [eexists _, _|]|].
  destruct (dio_mkdir io); [by split; [eexists _, _|]|].
  match goal with
  | |- context [copyDir ?l ?s ?d ?w] =>
      pose proof (copyDir_adds l s d w) as (_ & _ & Hent & _);
      destruct (copyDir l s d w) as [[e|] w1]
  end; simpl in *; [by split; [eexists _, _|]|].
  destruct (files w1 !! _); simpl; [|by split; [eexists _, _|]].
  rewrite Hent.
  match goal with
  | |- context [prepareEnvVars ?a ?b ?c ?d ?e] =>
      destruct (prepareEnvVars_outcome a b c d e) as [(env & s1 & Hprep)|[Hab Hrt]]
  end.
  2: { rewrite Hab in *. split; [|by split].
       intros Hsrc. destruct (Henough Hsrc) as (? & ? & Heq & _). discriminate Heq. }
  rewrite Hprep in *. simpl.
  destruct (dio_env_write io); [by split; [eexists _, _|]|].
  destruct (exec_err (dio_up io)); [by split; [eexists _, _|]|].
  rewrite uuid_New_run. unfold set_world, emit, set_files, set_entropy.
  cbn [entropy world].
  destruct (16 <=? length s1)%nat eqn:Hs1; [by split; [eexists _, _|]|].
  apply Nat.leb_gt in Hs1. split.
  - intros Hsrc. destruct (Henough Hsrc) as (? & ? & Heq & ?).
    injection Heq as <- <-. lia.
  - by destruct rand_Read_aborts.
Qed.

Lemma Stop_returns io software st : ∃ r st', Stop io software st = Done (r, st').
Proof.
  unfold Stop. destruct (String.eqb software ""); [by eexists _, _|].
  unfold findDeployment, stopDocker, deref. unfold_M. cbn.
  destruct (list_find _ _) as [[i d]|] eqn:Hfind; cbn; [|by eexists _, _].
  apply list_find_Some in Hfind as (Hi & _). rewrite Hi. cbn.
  destruct (exec_err (sio_run io)); [by eexists _, _|].
  rewrite updateDeploymentStatus_run. cbn.
  destruct (list_find _ _) as [[j dj]|]; cbn; [|rewrite Hi; by eexists _, _].
  rewrite saveDeployments_run. cbn. rewrite list_lookup_alter.
  destruct (decide (j = i)) as [->|]; rewrite Hi; by eexists _, _.
Qed.

Lemma Start_returns io software st : ∃ r st', Start io software st = Done (r, st').
Proof.
  unfold Start. destruct (String.eqb software ""); [by eexists _, _|].
  unfold findDeployment, startDocker, deref. unfold_M. cbn.
  destruct (list_find _ _) as [[i d]|] eqn:Hfind; cbn; [|by eexists _, _].
  apply list_find_Some in Hfind as (Hi & _). rewrite Hi. cbn.
  destruct (exec_err (sio_run io)); [by eexists _, _|].
  rewrite updateDeploymentStatus_run. cbn.
  destruct (list_find _ _) as [[j dj]|]; cbn; [|rewrite Hi; by eexists _, _].
  rewrite saveDeployments_run. cbn. rewrite list_lookup_alter.
  destruct (decide (j = i)) as [->|]; rewrite Hi; by eexists _, _.
Qed.

Lemma Destroy_returns io software st : ∃ r st', Destroy io software st = Done (r, st').
Proof.
  unfold Destroy. destruct (String.eqb software ""); [by eexists _, _|].
  unfold findDeployment, destroyDocker, deref. unfold_M. cbn.
  destruct (list_find _ _) as [[i d]|] eqn:Hfind; cbn; [|by eexists _, _].
  apply list_find_Some in Hfind as (Hi & _). rewrite Hi. cbn.
  destruct (exec_err (xio_run io)); [by eexists _, _|].
  destruct (OS.RemoveAll _ _ _) as [a w1]. cbn. rewrite Hi.
  rewrite removeDeployment_run. cbn.
  destruct (list_find _ _) as [[j dj]|]; by eexists _, _.
Qed.

Lemma Logs_returns answer software st : ∃ r st', Logs answer software st = Done (r, st').
Proof.
  unfold Logs. destruct (String.eqb software ""); [by eexists _, _|].
  unfold findDeployment, getDockerLogs, deref. unfold_M. cbn.
  destruct (list_find _ _) as [[i d]|] eqn:Hfind; cbn; [|by eexists _, _].
  apply list_find_Some in Hfind as (Hi & _). rewrite Hi. cbn.
  destruct (exec_err answer); by eexists _, _.
Qed.

End NoPanic.

(** X10.  How a lifecycle request can end.  [Stop], [Start], [Destroy]
    and [Logs] return on every state and for every answer of the outside:
    the pointer they got from [findDeployment] is valid wherever they read
    through it, also after the status update.  A deploy returns when the
    secure source has the bytes it asks for: 41 for the baseline secrets,
    7 for each declared input and 16 for the identifier.  When the source
    falls short the process is terminated only on a runtime whose read of
    the source terminates it, and it panics only on a runtime whose read
    returns its error, in [uuid.New], hence only after the probe, the
    [MkdirAll], the write of [.env] and [docker compose up] have all
    succeeded: the containers run and no record is committed. *)
Theorem lifecycle_requests_outcomes `{rt : GoRuntime} (op : Op) (st : State) :
  match op with
  | OpDeploy io software detail inputs =>
      ((57 + 7 * size (cd_Inputs detail) ≤ length (entropy (world st)))%nat →
       ∃ r st', run_op op st = Done (r, st')) ∧
      (run_op op st = Aborted → rand_Read_aborts = true) ∧
      (run_op op st = Panicked →
       rand_Read_aborts = false ∧ exec_err (dio_probe io) = None ∧
       dio_mkdir io = None ∧ dio_env_write io = None ∧ exec_err (dio_up io) = None)
  | _ => ∃ r st', run_op op st = Done (r, st')
  end.
Proof.
  destruct op as [io software detail inputs|io software|io software|io software
                 |answer software]; simpl.
  - apply deployLocal_outcome.
  - apply Stop_returns.
  - apply Start_returns.
  - apply Destroy_returns.
  - apply Logs_returns.
Qed.

(** A deploy that panics: on a runtime whose read of the secure source
    returns its error, with the 41 bytes of the baseline secrets in the
    source and no more, every step up to [docker compose up] succeeds and
    [uuid.New] panics. *)
Example deployLocal_panics_in_uuid_New :
  deployLocal (rt := SampleRuntime.runtime false) (SampleRuntime.deploy_ok "id-1" 10)
    "ghost" SampleRuntime.ghost ∅
    {| svc := svc SampleRuntime.start_state;
       world := set_entropy (replicate 41 x2a) SampleRuntime.empty_world |}
  = Panicked.
Proof. vm_compute. reflexivity. Qed.

(** ** What a deploy leaves *)

(** X13.  A deploy that succeeds.  When [deployLocal] returns a value,
    every step before the commit succeeded: the probe, the [MkdirAll] of
    the deployment directory, every step of the copy of the catalog
    entry, the write of [.env] and [docker compose up]; the composition
    file was in the deployment directory after the copy.  One record is
    appended to the store, whatever the write of the state file
    answered: identifier and clock readings as the outside gave them,
    target [local], status [running], the deployment directory, the
    user's inputs as they came, and the port [findExposedPort] reads
    from that composition file.  The paths of the service are not
    changed and the deployment directory exists. *)
Theorem deployLocal_success `{rt : GoRuntime} (io : DeployIO) (software : string)
    (detail : CatalogDetail) (inputs : gmap string string) (st st' : State)
    (out : string) :
  deployLocal io software detail inputs st = Done (Ok out, st') →
  exec_err (dio_probe io) = None ∧
  dio_mkdir io = None ∧
  (∃ entries, dio_catalog io = Fine entries ∧ forallb entry_fine entries = true) ∧
  dio_env_write io = None ∧
  exec_err (dio_up io) = None ∧
  ∃ compose,
    files (staged io software st)
      !! filepath_Join [deployDir_of (svc st) software; "docker-compose.yaml"%string]
      = Some compose ∧
    deployments (svc st') =
      deployments (svc st) ++
        [{| ld_ID := dio_uuid io;
            ld_Software := software;
            ld_Target := "local";
            ld_Status := "running";
            ld_Directory := deployDir_of (svc st) software;
            ld_Port := findExposedPort (dio_seed_ports io) compose;
            ld_Inputs := inputs;
            ld_CreatedAt := dio_created io;
            ld_UpdatedAt := dio_updated io |}] ∧
    configPath (svc st') = configPath (svc st) ∧
    catalogPath (svc st') = catalogPath (svc st) ∧
    deployDir_of (svc st) software ∈ dirs (world st').
Proof.
  remember (staged io software st) as ws eqn:Hws.
  unfold deployDir_of.
  unfold deployLocal, checkDockerAvailable, addDeployment. unfold_M. cbn.
  destruct (exec_err (dio_probe io)); [done|].
  destruct (dio_mkdir io); [done|].
  match goal with
  | |- context [copyDir ?l ?s ?d ?w] =>
      assert (ws = (copyDir l s d w).2) as Hstaged by (by rewrite Hws);
      pose proof (copyDir_adds l s d w) as (Hdirs & _);
      pose proof (copyDir_fine l s d w) as Hfine;
      destruct (copyDir l s d w) as [[e|] w1]
  end; cbn in *; [done|]. clear Hws. subst ws.
  destruct (files w1 !! _) as [compose|] eqn:Hcompose; cbn; [|done].
  destruct (prepareEnvVars _ _ _ _ _) as [[envVars src']| |]; [|done..]. cbn.
  destruct (dio_env_write io); [done|].
  destruct (exec_err (dio_up io)); [done|].
  rewrite uuid_New_run.
  destruct (16 <=? _)%nat; [|by destruct rand_Read_aborts].
  rewrite saveDeployments_run. cbn. intros [= _ <-].
  destruct Hfine as [Hfine _].
  split; [done|]. split; [done|]. split; [by apply Hfine|]. split; [done|].
  split; [done|]. exists compose. split; [done|].
  destruct (dio_save io); cbn; (split; [done|]); (split; [done|]); (split; [done|]);
    set_solver.
Qed.

Lemma deployLocal_success_witness :
  ∃ st',
    states_after (rt := SampleRuntime.runtime true)
      [OpDeploy (SampleRuntime.deploy_ok "id-1" 10) "ghost" SampleRuntime.ghost ∅]
      SampleRuntime.start_state = [st'] ∧
    ld_Port <$> deployments (svc st') = [2368] ∧
    "/home/u/.opensourcer/deployments/ghost"%string ∈ dirs (world st').
Proof.
  pose (r := deployLocal (rt := SampleRuntime.runtime true)
               (SampleRuntime.deploy_ok "id-1" 10) "ghost" SampleRuntime.ghost ∅
               SampleRuntime.start_state).
  pose (out := match r with Done (Ok out, _) => out | _ => ""%string end).
  pose (st' := match r with Done (_, st') => st' | _ => SampleRuntime.start_state end).
  assert (r = Done (Ok out, st')) as Hrun by (vm_compute; reflexivity).
  unfold r in Hrun.
  destruct (deployLocal_success (rt := SampleRuntime.runtime true)
              (SampleRuntime.deploy_ok "id-1" 10) "ghost" SampleRuntime.ghost ∅
              SampleRuntime.start_state st' out Hrun)
    as (_ & _ & _ & _ & _ & compose & Hcompose & Hds & _ & _ & Hdir).
  exists st'. split; [vm_compute; reflexivity|].
  split; [|exact Hdir].
  rewrite Hds. vm_compute in Hcompose. injection Hcompose as <-.
  vm_compute. reflexivity.
Defined.

(** X14.  A deploy that fails cleans nothing up.  When the probe and the
    [MkdirAll] of the deployment directory succeeded and [deployLocal]
    then returns an error, at whichever later step, no record is added
    to the store and the deployment directory is left behind: it exists
    after the call, as does every directory and every file that existed
    before it. *)
Theorem deployLocal_failure_leaves_directory `{rt : GoRuntime} (io : DeployIO)
    (software : string) (detail : CatalogDetail) (inputs : gmap string string)
    (st st' : State) (msg : string) :
  exec_err (dio_probe io) = None →
  dio_mkdir io = None →
  deployLocal io software detail inputs st = Done (Err msg, st') →
  svc st' = svc st ∧
  deployDir_of (svc st) software ∈ dirs (world st') ∧
  dirs (world st) ⊆ dirs (world st') ∧
  dom (files (world st)) ⊆ dom (files (world st')).
Proof.
  intros Hprobe Hmkdir. unfold deployDir_of.
  unfold deployLocal, checkDockerAvailable, addDeployment. unfold_M. cbn.
  rewrite Hprobe, Hmkdir.
  match goal with
  | |- context [copyDir ?l ?s ?d ?w] =>
      pose proof (copyDir_adds l s d w) as (Hdirs & Hfiles & _);
      destruct (copyDir l s d w) as [[e|] w1]
  end; cbn in *; [intros [= _ <-]; cbn; set_solver|].
  destruct (files w1 !! _) as [compose|]; cbn; [|intros [= _ <-]; cbn; set_solver].
  destruct (prepareEnvVars _ _ _ _ _) as [[envVars src']| |]; [|done..]. cbn.
  destruct (dio_env_write io); [intros [= _ <-]; cbn; set_solver|].
  destruct (exec_err (dio_up io)).
  - intros [= _ <-]; cbn. rewrite dom_insert. set_solver.
  - rewrite uuid_New_run.
    destruct (16 <=? _)%nat; [|by destruct rand_Read_aborts].
    rewrite saveDeployments_run. done.
Qed.

Lemma deployLocal_failure_leaves_directory_witness :
  ∃ msg st',
    deployLocal (rt := SampleRuntime.runtime true)
      {| dio_probe := SampleRuntime.ok; dio_mkdir := None;
         dio_catalog := Fine SampleRuntime.ghost_catalog; dio_env_write := None;
         dio_environ := []; dio_up := SampleRuntime.failed; dio_uuid := "id-1";
         dio_created := 10; dio_updated := 10; dio_save := None;
         dio_seed_inputs := []; dio_seed_detail := []; dio_seed_envfile := [];
         dio_seed_envslice := []; dio_seed_ports := [] |} "wiki" SampleRuntime.wiki ∅
      SampleRuntime.start_state = Done (Err msg, st') ∧
    deployments (svc st') = [] ∧
    "/home/u/.opensourcer/deployments/wiki"%string ∈ dirs (world st').
Proof.
  pose (r := deployLocal (rt := SampleRuntime.runtime true)
               {| dio_probe := SampleRuntime.ok; dio_mkdir := None;
         dio_catalog := Fine SampleRuntime.ghost_catalog; dio_env_write := None;
         dio_environ := []; dio_up := SampleRuntime.failed; dio_uuid := "id-1";
         dio_created := 10; dio_updated := 10; dio_save := None;
         dio_seed_inputs := []; dio_seed_detail := []; dio_seed_envfile := [];
         dio_seed_envslice := []; dio_seed_ports := [] |} "wiki"
               SampleRuntime.wiki ∅ SampleRuntime.start_state).
  pose (msg := match r with Done (Err msg, _) => msg | _ => ""%string end).
  pose (st' := match r with Done (_, st') => st' | _ => SampleRuntime.start_state end).
  assert (r = Done (Err msg, st')) as Hrun by (vm_compute; reflexivity).
  unfold r in Hrun.
  destruct (deployLocal_failure_leaves_directory (rt := SampleRuntime.runtime true)
              {| dio_probe := SampleRuntime.ok; dio_mkdir := None;
         dio_catalog := Fine SampleRuntime.ghost_catalog; dio_env_write := None;
         dio_environ := []; dio_up := SampleRuntime.failed; dio_uuid := "id-1";
         dio_created := 10; dio_updated := 10; dio_save := None;
         dio_seed_inputs := []; dio_seed_detail := []; dio_seed_envfile := [];
         dio_seed_envslice := []; dio_seed_ports := [] |} "wiki"
              SampleRuntime.wiki ∅ SampleRuntime.start_state st' msg
              eq_refl eq_refl Hrun)
    as (Hsvc & Hdir & _).
  exists msg, st'. split; [exact Hrun|]. split; [by rewrite Hsvc|exact Hdir].
Defined.

(** ** Defaults of the environment *)

Section EnvMore.
Context `{rt : GoRuntime}.
Implicit Types (envVars env : gmap string string).

(** A name the second loop of [prepareEnvVars] adds is the name of a
    declared input of type password. *)
Lemma generate_missing_origin entries envVars src env src' k :
  generate_missing entries envVars src = Done (env, src') →
  envVars !! k = None → is_Some (env !! k) →
  ∃ key input, (key, input) ∈ entries ∧ ic_Type input = "password"%string ∧
               envKeyOf key = k.
Proof.
  revert envVars src; induction entries as [|[key input] rest IH];
    intros envVars src; simpl.
  { intros [= <- <-] Hnone [v Hv]. congruence. }
  assert (∀ envVars src,
            generate_missing rest envVars src = Done (env, src') →
            envVars !! k = None → is_Some (env !! k) →
            ∃ key' input', (key', input') ∈ (key, input) :: rest ∧
                           ic_Type input' = "password"%string ∧ envKeyOf key' = k)
    as IH'.
  { intros e s Hrun Hnone Hsome.
    destruct (IH e s Hrun Hnone Hsome) as (key' & input' & Hin & ? & ?).
    exists key', input'. split; [by right|done]. }
  destruct (envVars !! envKeyOf key) as [v0|] eqn:Hk; [apply IH'|].
  destruct (String.eqb (ic_Type input) "password") eqn:Htype; [|apply IH'].
  unfold mbind at 1, Rand_bind.
  destruct (generatePassword 12 src) as [[p src1]| |]; [|done..].
  intros Hrun Hnone Hsome.
  destruct (decide (envKeyOf key = k)) as [Heq|Hne].
  - exists key, input. split; [left|]. by apply String.eqb_eq in Htype.
  - apply (IH' _ _ Hrun); [by rewrite lookup_insert_ne|done].
Qed.

(** The names of the result before the default for [DOMAIN], as the
    three steps of [prepareEnvVars] leave them. *)
Lemma prepareEnvVars_steps seed_inputs seed_detail detail inputs src env src' :
  prepareEnvVars seed_inputs seed_detail detail inputs src = Done (env, src') →
  ∃ db admin secret env3,
    (String.length db = 16%nat ∧ GoString.all_chars Hex.is_upper_hex db = true) ∧
    (String.length admin = 12%nat ∧ GoString.all_chars Hex.is_upper_hex admin = true) ∧
    (String.length secret = 48%nat ∧ GoString.all_chars Hex.is_upper_hex secret = true) ∧
    (∀ name, ¬ user_sets inputs name →
       (∀ v, (<["SECRET_KEY"%string := secret]>
               (<["ADMIN_PASSWORD"%string := admin]>
                 (<["DB_PASSWORD"%string := db]> ∅)) : gmap string string) !! name
             = Some v → env3 !! name = Some v) ∧
       (name ∉ baseline_secrets → ¬ declares_password detail name →
        env3 !! name = None)) ∧
    env = match env3 !! "DOMAIN"%string with
          | Some _ => env3
          | None => <["DOMAIN"%string := "localhost"%string]> env3
          end.
Proof.
  unfold prepareEnvVars, mbind, Rand_bind, mret, Rand_ret.
  destruct (generatePassword 16 src) as [[db s1]| |] eqn:Hdb; [|done..].
  destruct (generatePassword 12 s1) as [[admin s2]| |] eqn:Hadmin; [|done..].
  destruct (generatePassword 48 s2) as [[secret s3]| |] eqn:Hsecret; [|done..].
  apply generatePassword_Done in Hdb as (_ & Hdb & Hdbx).
  apply generatePassword_Done in Hadmin as (_ & Hadmin & Hadminx).
  apply generatePassword_Done in Hsecret as (_ & Hsecret & Hsecretx).
  set (env1 := <["SECRET_KEY"%string := secret]> _).
  set (env2 := apply_inputs _ env1).
  destruct (generate_missing _ env2 s3) as [[env3 s4]| |] eqn:Hgen; [|done..].
  intros [= <- <-]. exists db, admin, secret, env3.
  split; [done|]. split; [done|]. split; [done|]. split; [|done].
  intros name Huser.
  assert (env2 !! name = env1 !! name) as H2.
  { unfold env2.
    destruct (apply_inputs_lookup (go_range seed_inputs inputs) env1 name)
      as [(key & value & Hin & Hv & Hk & _)|[_ Heq]]; [|done].
    exfalso. apply Huser. exists key, value. by apply elem_of_go_range in Hin. }
  split.
  - intros v Hv. apply generate_missing_Done in Hgen as (Hkeep & _ & _).
    apply Hkeep. by rewrite H2.
  - intros Hbase Hdecl. destruct (env3 !! name) as [v|] eqn:H3; [|done].
    exfalso. apply Hdecl.
    destruct (generate_missing_origin _ _ _ _ _ name Hgen) as (key & input & Hin & ? & ?).
    + rewrite H2. unfold env1. unfold baseline_secrets in Hbase.
      rewrite !lookup_insert_ne; [done|set_solver..].
    + by exists v.
    + exists key, input. by apply elem_of_go_range in Hin.
Qed.

(** The special cases of the table are what the general translation
    gives for their keys. *)
Lemma envKeyOf_general key :
  envKeyOf key = ToUpper (GoString.ReplaceAll1 key "-" "_").
Proof.
  unfold envKeyOf. destruct (keyMapping !! key) as [mapped|] eqn:Hkey; [|done].
  unfold keyMapping in Hkey. apply elem_of_list_to_map_2 in Hkey.
  repeat (apply elem_of_cons in Hkey as [[= -> ->]|Hkey]; [reflexivity|]).
  by apply elem_of_nil in Hkey.
Qed.

Lemma env_name_char_upper c :
  (nat_of_ascii c <? 128)%nat = true →
  (nat_of_ascii (if Ascii.eqb c "-" then "_"%char else c) <? 128)%nat = true ∧
  env_name_char (GoString.upper_byte (if Ascii.eqb c "-" then "_"%char else c)) = true.
Proof.
  destruct c as [[] [] [] [] [] [] [] []]; vm_compute; intros; done.
Qed.

Lemma envKeyOf_chars key :
  GoString.isASCII key = true → GoString.all_chars env_name_char (envKeyOf key) = true.
Proof.
  intros Hkey. rewrite envKeyOf_general. unfold ToUpper.
  assert (GoString.isASCII (GoString.ReplaceAll1 key "-" "_") = true ∧
          GoString.all_chars env_name_char
            (GoString.map_bytes GoString.upper_byte (GoString.ReplaceAll1 key "-" "_"))
          = true) as [-> Hchars]; [|done].
  induction key as [|c r IH]; simpl in *; [done|].
  apply andb_true_iff in Hkey as [Hc Hr].
  destruct (IH Hr) as [-> ->]. destruct (env_name_char_upper c Hc) as [-> ->]. done.
Qed.

End EnvMore.

(** X15.  Baseline secrets are generated tokens.  In a returned
    environment set each of [DB_PASSWORD], [ADMIN_PASSWORD] and
    [SECRET_KEY] that no user input with a value is translated to holds
    a token of upper-case hexadecimal digits of 16, 12 and 48 characters:
    the second loop and the default for [DOMAIN] never replace it. *)
Theorem prepareEnvVars_baseline_tokens `{rt : GoRuntime}
    (seed_inputs seed_detail : list nat) (detail : CatalogDetail)
    (inputs : gmap string string) (src src' : list byte)
    (env : gmap string string) (name : string) (len : nat) :
  prepareEnvVars seed_inputs seed_detail detail inputs src = Done (env, src') →
  (name, len) ∈ baseline_lengths →
  ¬ user_sets inputs name →
  ∃ token, env !! name = Some token ∧ String.length token = len ∧
           GoString.all_chars Hex.is_upper_hex token = true.
Proof.
  intros Hrun Hname Huser.
  apply prepareEnvVars_steps in Hrun
    as (db & admin & secret & env3 & [Hdb Hdbx] & [Had Hadx] & [Hsec Hsecx] & Hnames & ->).
  destruct (Hnames name Huser) as [Hkeep _].
  assert (∀ v, env3 !! name = Some v →
            match env3 !! "DOMAIN"%string with
            | Some _ => env3
            | None => <["DOMAIN"%string := "localhost"%string]> env3
            end !! name = Some v) as Hkeep4.
  { intros v Hv. destruct (env3 !! "DOMAIN"%string) eqn:Hdom; [done|].
    rewrite lookup_insert_ne; [done|]. intros <-. congruence. }
  unfold baseline_lengths in Hname.
  apply elem_of_cons in Hname as [[= -> ->]|Hname];
    [exists db; split; [apply Hkeep4, Hkeep; by simplify_map_eq|done]|].
  apply elem_of_cons in Hname as [[= -> ->]|Hname];
    [exists admin; split; [apply Hkeep4, Hkeep; by simplify_map_eq|done]|].
  apply elem_of_cons in Hname as [[= -> ->]|Hname];
    [exists secret; split; [apply Hkeep4, Hkeep; by simplify_map_eq|done]|].
  by apply elem_of_nil in Hname.
Qed.

Lemma prepareEnvVars_baseline_tokens_witness :
  ∃ env src',
    prepareEnvVars (rt := SampleRuntime.runtime true) [] [] SampleRuntime.wiki ∅
      (replicate 100 x2a) = Done (env, src') ∧
    ∃ token, env !! "SECRET_KEY"%string = Some token ∧ String.length token = 48%nat.
Proof.
  pose (r := prepareEnvVars (rt := SampleRuntime.runtime true) [] [] SampleRuntime.wiki ∅
               (replicate 100 x2a)).
  pose (env := match r with Done (env, _) => env | _ => ∅ end).
  pose (src' := match r with Done (_, src') => src' | _ => [] end).
  assert (r = Done (env, src')) as Hrun by (vm_compute; reflexivity).
  unfold r in Hrun.
  destruct (prepareEnvVars_baseline_tokens (rt := SampleRuntime.runtime true)
              [] [] SampleRuntime.wiki ∅ (replicate 100 x2a) src' env
              "SECRET_KEY" 48 Hrun)
    as (token & Htoken & Hlen & _).
  - unfold baseline_lengths. right. right. left.
  - intros (key & value & Hin & _). by rewrite lookup_empty in Hin.
  - exists env, src'. split; [exact Hrun|]. exists token. split; [exact Htoken|exact Hlen].
Defined.

(** X16.  The default for [DOMAIN].  A returned environment set always
    has a value for [DOMAIN], and the value is [localhost] when no user
    input with a value and no declared input of type password is
    translated to that name. *)
Theorem prepareEnvVars_domain_default `{rt : GoRuntime}
    (seed_inputs seed_detail : list nat) (detail : CatalogDetail)
    (inputs : gmap string string) (src src' : list byte)
    (env : gmap string string) :
  prepareEnvVars seed_inputs seed_detail detail inputs src = Done (env, src') →
  is_Some (env !! "DOMAIN"%string) ∧
  (¬ user_sets inputs "DOMAIN" → ¬ declares_password detail "DOMAIN" →
   env !! "DOMAIN"%string = Some "localhost"%string).
Proof.
  intros Hrun.
  apply prepareEnvVars_steps in Hrun
    as (db & admin & secret & env3 & _ & _ & _ & Hnames & ->).
  split.
  - destruct (env3 !! "DOMAIN"%string) eqn:Hdom; [by rewrite Hdom|].
    by rewrite lookup_insert_eq.
  - intros Huser Hdecl. destruct (Hnames _ Huser) as [_ Hnone].
    rewrite Hnone; [by rewrite lookup_insert_eq| |done].
    unfold baseline_secrets. intros Hin.
    repeat (apply elem_of_cons in Hin as [[=]|Hin]). by apply elem_of_nil in Hin.
Qed.

Lemma prepareEnvVars_domain_default_witness :
  ∃ env src',
    prepareEnvVars (rt := SampleRuntime.runtime true) [] [] SampleRuntime.ghost ∅
      (replicate 100 x2a) = Done (env, src') ∧
    env !! "DOMAIN"%string = Some "localhost"%string.
Proof.
  pose (r := prepareEnvVars (rt := SampleRuntime.runtime true) [] [] SampleRuntime.ghost ∅
               (replicate 100 x2a)).
  pose (env := match r with Done (env, _) => env | _ => ∅ end).
  pose (src' := match r with Done (_, src') => src' | _ => [] end).
  assert (r = Done (env, src')) as Hrun by (vm_compute; reflexivity).
  unfold r in Hrun.
  destruct (prepareEnvVars_domain_default (rt := SampleRuntime.runtime true)
              [] [] SampleRuntime.ghost ∅ (replicate 100 x2a) src' env Hrun)
    as [_ Hdom].
  exists env, src'. split; [exact Hrun|]. apply Hdom.
  - intros (key & value & Hin & _). by rewrite lookup_empty in Hin.
  - intros (key & input & Hin & _). simpl in Hin. by rewrite lookup_empty in Hin.
Defined.

(** X17.  The table of special cases changes nothing.  For every input
    key the environment name is the key with each hyphen replaced by an
    underscore, in upper case: each of the eight keys of [keyMapping] is
    mapped to exactly what the general translation gives for it. *)
Theorem envKeyOf_is_general_translation `{rt : GoRuntime} (key : string) :
  envKeyOf key = ToUpper (GoString.ReplaceAll1 key "-" "_").
Proof. apply envKeyOf_general. Qed.

(** X18.  Environment names of ASCII keys.  The environment name of a key
    made of ASCII bytes holds no hyphen and no lower-case letter. *)
Theorem envKeyOf_ascii_name `{rt : GoRuntime} (key : string) :
  GoString.isASCII key = true →
  GoString.all_chars env_name_char (envKeyOf key) = true.
Proof. apply envKeyOf_chars. Qed.

Lemma envKeyOf_ascii_name_witness :
  envKeyOf (rt := SampleRuntime.runtime true) "api-token" = "API_TOKEN"%string ∧
  GoString.all_chars env_name_char
    (envKeyOf (rt := SampleRuntime.runtime true) "api-token") = true.
Proof.
  split; [reflexivity|].
  apply (envKeyOf_ascii_name (rt := SampleRuntime.runtime true) "api-token").
  reflexivity.
Defined.

(** ** Tokens and the bytes they are made of *)

Section TokenMore.
Context `{rt : GoRuntime}.

(** The first [n] digits of an encoding are those of the first [k]
    bytes when [n ≤ 2 k]. *)
Lemma substring_0_Encode_take n k bs :
  (n ≤ 2 * k)%nat →
  String.substring 0 n (Hex.EncodeToString (take k bs)) =
  String.substring 0 n (Hex.EncodeToString bs).
Proof.
  revert n k; induction bs as [|v r IH]; intros n k Hn.
  { by rewrite take_nil. }
  destruct k as [|k].
  { assert (n = 0%nat) as -> by lia. reflexivity. }
  destruct n as [|[|n]]; [reflexivity..|].
  simpl. do 2 f_equal. apply IH. lia.
Qed.

Lemma generatePassword_used_bytes length src :
  0 ≤ length → (bytes_asked length ≤ List.length src)%nat →
  generatePassword length src =
    Done (token_of length (take (Z.to_nat ((length + 1) ÷ 2)) src),
          drop (bytes_asked length) src).
Proof.
  intros Hlen Hsrc. rewrite generatePassword_enough by done.
  unfold token_of. do 3 f_equal.
  assert (Z.to_nat ((length + 1) ÷ 2) ≤ bytes_asked length)%nat as Hk.
  { unfold bytes_asked. apply Z2Nat.inj_le; div_lia. }
  rewrite <- (substring_0_Encode_take _ (Z.to_nat ((length + 1) ÷ 2))
                (take (bytes_asked length) src)).
  - rewrite take_take. by rewrite Nat.min_l.
  - rewrite <- (Nat2Z.id 2), <- Z2Nat.inj_mul by div_lia.
    apply Z2Nat.inj_le; div_lia.
Qed.

End TokenMore.

(** X19.  Which bytes make a token.  With enough bytes in the source,
    the token of length [L] is made of the first [⌈L/2⌉] bytes read,
    while [⌊L/2⌋ + 1] bytes are taken from the source: for an even
    length the last byte read never reaches the token, and two sources
    that agree on the first [⌈L/2⌉] bytes give the same token. *)
Theorem generatePassword_spare_byte `{rt : GoRuntime} (length : Z) (src : list byte) :
  0 ≤ length → (bytes_asked length ≤ List.length src)%nat →
  generatePassword length src =
    Done (token_of length (take (Z.to_nat ((length + 1) ÷ 2)) src),
          drop (bytes_asked length) src) ∧
  (Z.even length = true →
   bytes_asked length = S (Z.to_nat ((length + 1) ÷ 2))) ∧
  (∀ src2 : list byte,
     (bytes_asked length ≤ List.length src2)%nat →
     take (Z.to_nat ((length + 1) ÷ 2)) src2 = take (Z.to_nat ((length + 1) ÷ 2)) src →
     ∃ rest, generatePassword length src2 =
               Done (token_of length (take (Z.to_nat ((length + 1) ÷ 2)) src), rest)).
Proof.
  intros Hlen Hsrc. split; [by apply generatePassword_used_bytes|]. split.
  - intros Heven. unfold bytes_asked.
    apply Z.even_spec in Heven as [h ->].
    rewrite <- Z2Nat.inj_succ by div_lia. f_equal. div_lia.
  - intros src2 Hsrc2 Hsame. rewrite generatePassword_used_bytes by done.
    rewrite Hsame. by eexists.
Qed.

Lemma generatePassword_spare_byte_witness :
  generatePassword (rt := SampleRuntime.runtime true) 16 (replicate 100 x2a) =
    Done (token_of 16 (replicate 8 x2a), replicate 91 x2a).
Proof.
  destruct (generatePassword_spare_byte (rt := SampleRuntime.runtime true) 16
              (replicate 100 x2a)) as [Hrun _].
  - lia.
  - vm_compute. lia.
  - exact Hrun.
Defined.

(** ** Port detection beyond the order of visits *)

Section PortMore.

Lemma portMap_positive port portNum : portMap !! port = Some portNum → portNum ≠ 0.
Proof.
  unfold portMap. intros Hport. apply elem_of_list_to_map_2 in Hport.
  repeat (apply elem_of_cons in Hport as [[= -> ->]|Hport]; [done|]).
  by apply elem_of_nil in Hport.
Qed.

Lemma findExposedPort_zero seed composeContent :
  findExposedPort seed composeContent = 0 ↔
  ∀ port, is_Some (portMap !! port) → port_occurs composeContent port = false.
Proof.
  split; [|apply findExposedPort_none].
  intros Hzero.
  destruct (findExposedPort_result seed composeContent)
    as [[_ Hnone]|(port & Hport & _)]; [exact Hnone|].
  rewrite Hzero in Hport. apply portMap_positive in Hport. congruence.
Qed.

Lemma findExposedPort_same seed1 seed2 composeContent :
  (∀ p1 p2, is_Some (portMap !! p1) → is_Some (portMap !! p2) →
            port_occurs composeContent p1 = true →
            port_occurs composeContent p2 = true → p1 = p2) →
  findExposedPort seed1 composeContent = findExposedPort seed2 composeContent.
Proof.
  intros Hone.
  destruct (findExposedPort_result seed1 composeContent)
    as [[H1 Hnone1]|(p1 & Hp1 & Hocc1)];
  destruct (findExposedPort_result seed2 composeContent)
    as [[H2 Hnone2]|(p2 & Hp2 & Hocc2)].
  - by rewrite H1, H2.
  - rewrite Hnone1 in Hocc2; [discriminate Hocc2|eexists; exact Hp2].
  - rewrite Hnone2 in Hocc1; [discriminate Hocc1|eexists; exact Hp1].
  - assert (p1 = p2) as Heq.
    { apply Hone; [eexists; exact Hp1|eexists; exact Hp2|exact Hocc1|exact Hocc2]. }
    rewrite Heq in Hp1. rewrite Hp1 in Hp2. exact (inj Some _ _ Hp2).
Qed.

Lemma ghost_compose_one_port port :
  is_Some (portMap !! port) →
  port_occurs SampleRuntime.ghost_compose port = true → port = "2368"%string.
Proof.
  unfold portMap. intros [portNum Hport]. apply elem_of_list_to_map_2 in Hport.
  repeat (apply elem_of_cons in Hport as [[= -> ->]|Hport];
          [vm_compute; intros; done|]).
  by apply elem_of_nil in Hport.
Qed.

End PortMore.

(** X20.  No port found.  [findExposedPort] returns 0 exactly when the
    text holds the quoted pattern of no port of the table, in whatever
    order the table is visited: no port of the table is 0. *)
Theorem findExposedPort_zero_iff (seed : list nat) (composeContent : string) :
  findExposedPort seed composeContent = 0 ↔
  ∀ port, is_Some (portMap !! port) → port_occurs composeContent port = false.
Proof. apply findExposedPort_zero. Qed.

(** X21.  One mapped port, one answer.  When the patterns of at most one
    port of the table occur in the text, the result of [findExposedPort]
    is the same in every visiting order of the table. *)
Theorem findExposedPort_order_independent (seed1 seed2 : list nat)
    (composeContent : string) :
  (∀ p1 p2, is_Some (portMap !! p1) → is_Some (portMap !! p2) →
            port_occurs composeContent p1 = true →
            port_occurs composeContent p2 = true → p1 = p2) →
  findExposedPort seed1 composeContent = findExposedPort seed2 composeContent.
Proof. apply findExposedPort_same. Qed.

Lemma findExposedPort_order_independent_witness :
  findExposedPort [] SampleRuntime.ghost_compose =
  findExposedPort [1; 1; 1; 1; 1; 1; 1; 1; 1]%nat SampleRuntime.ghost_compose.
Proof.
  apply (findExposedPort_order_independent [] [1; 1; 1; 1; 1; 1; 1; 1; 1]%nat
           SampleRuntime.ghost_compose).
  intros p1 p2 Hp1 Hp2 Hocc1 Hocc2.
  rewrite (ghost_compose_one_port p1 Hp1 Hocc1).
  rewrite (ghost_compose_one_port p2 Hp2 Hocc2). reflexivity.
Defined.

(** ** The handlers of the service file *)

Section HandlersMore.
Context `{rt : GoRuntime} `{tx : GoText}.

Lemma getArg_facts args :
  String.prefix "-" (getArg args) = false ∧
  (getArg args ≠ ""%string → args !! 2%nat = Some (getArg args)) ∧
  ((length args < 3)%nat → getArg args = ""%string).
Proof.
  unfold getArg. destruct (3 <=? length args)%nat eqn:Hlen; [|done].
  apply Nat.leb_le in Hlen.
  destruct (args !! 2%nat) as [arg|] eqn:Harg; simpl.
  - destruct (String.prefix "-" arg) eqn:Hflag; simpl; [done|].
    split; [exact Hflag|]. split; [done|lia].
  - split; [done|]. split; [done|lia].
Qed.

Lemma collect_inputs_lookup param entries inputs k :
  collect_inputs param entries inputs !! k =
    if decide (k ∈ entries.*1)
    then if String.eqb (param k) "" then inputs !! k else Some (param k)
    else inputs !! k.
Proof.
  revert inputs; induction entries as [|[key input] rest IH]; intros inputs.
  { cbn [collect_inputs]. rewrite decide_False; [done|].
    rewrite fmap_nil. apply not_elem_of_nil. }
  cbn [collect_inputs]. rewrite fmap_cons. cbn [fst].
  destruct (String.eqb (param key) "") eqn:Hval; rewrite IH.
  - destruct (decide (k = key)) as [->|Hne].
    + rewrite Hval. rewrite (decide_True (P := key ∈ key :: rest.*1)) by left.
      by case_decide.
    + case_decide as Hin.
      * rewrite decide_True; [done|by right].
      * rewrite decide_False; [done|].
        intros Hin'. apply elem_of_cons in Hin' as [?|?]; done.
  - destruct (decide (k = key)) as [->|Hne].
    + rewrite Hval, lookup_insert_eq.
      rewrite (decide_True (P := key ∈ key :: rest.*1)) by left.
      by case_decide.
    + rewrite lookup_insert_ne by done. case_decide as Hin.
      * rewrite decide_True; [done|by right].
      * rewrite decide_False; [done|].
        intros Hin'. apply elem_of_cons in Hin' as [?|?]; done.
Qed.

Lemma list_rows_outcome ds output :
  (Exists short_id ds ∧ list_rows ds output = Panicked) ∨
  (Forall (λ d, ¬ short_id d) ds ∧ ∃ out, list_rows ds output = Done out).
Proof.
  revert output; induction ds as [|d rest IH]; intros output; simpl.
  { right. split; [constructor|by eexists]. }
  unfold list_row, GoString.slice_to. cbn [Z.ltb Z.compare orb].
  destruct (Z.of_nat (String.length (ld_ID d)) <? 8) eqn:Hid.
  - left. split; [|done]. left. unfold short_id. apply Z.ltb_lt in Hid. lia.
  - apply Z.ltb_ge in Hid.
    match goal with |- context [list_rows rest ?o] => destruct (IH o) as [[Hex Hrun]|[Hall Hrun]] end.
    + left. split; [by right|done].
    + right. split; [|done]. constructor; [unfold short_id; lia|done].
Qed.

End HandlersMore.

(** X22.  The positional argument.  [getArg] never returns a flag: what
    it returns does not start with a hyphen.  What it returns is empty
    or the third element of the command line, and it is empty when the
    command line has fewer than three elements. *)
Theorem getArg_positional (args : list string) :
  String.prefix "-" (getArg args) = false ∧
  (getArg args ≠ ""%string → args !! 2%nat = Some (getArg args)) ∧
  ((length args < 3)%nat → getArg args = ""%string).
Proof. apply getArg_facts. Qed.

(** X23.  The inputs a deploy passes on.  The input set [Deploy] builds
    holds exactly the declared keys whose flag has a value, each with
    that value: undeclared flags and empty values are left out, and the
    set does not depend on the order in which the declared inputs are
    visited. *)
Theorem Deploy_inputs_declared (param : string → string) (seed : list nat)
    (declared : gmap string InputConfig) (k v : string) :
  collect_inputs param (go_range seed declared) ∅ !! k = Some v ↔
  is_Some (declared !! k) ∧ param k = v ∧ v ≠ ""%string.
Proof.
  rewrite collect_inputs_lookup, lookup_empty.
  assert (k ∈ (go_range seed declared).*1 ↔ is_Some (declared !! k)) as Hdom.
  { rewrite list_elem_of_fmap. split.
    - intros ([k' input] & -> & Hin). apply elem_of_go_range in Hin. by exists input.
    - intros [input Hin]. exists (k, input). split; [done|]. by apply elem_of_go_range. }
  case_decide as Hin.
  - destruct (String.eqb (param k) "") eqn:Hval.
    + apply String.eqb_eq in Hval. split; [done|]. intros (_ & <- & Hne). done.
    + apply String.eqb_neq in Hval. split.
      * intros [= <-]. split; [by apply Hdom|done].
      * by intros (_ & <- & _).
  - split; [done|]. intros (Hk & _). by apply Hdom in Hk.
Qed.

(** X24.  Requests [Deploy] turns down.  Without a slug on the command
    line, without a readable definition of the slug in the catalog, with
    a definition that does not parse, or with a target other than
    [local], [Deploy] returns an error and does nothing: the process
    state is the one before the call, no command is run and no
    directory is made. *)
Theorem Deploy_refused `{rt : GoRuntime} `{tx : GoText} (args : list string)
    (param : string → string) (seed : list nat) (io : DeployIO) (st : State) :
  deploy_refused args param st →
  ∃ msg, Deploy args param seed io st = Done (Err msg, st).
Proof.
  unfold deploy_refused, Deploy, getCatalogDetail. unfold_M.
  destruct st as [s w]. cbn.
  destruct (String.eqb (getArg args) "") eqn:Harg; [by eexists|].
  apply String.eqb_neq in Harg. intros [Hempty|Hrest]; [done|]. revert Hrest.
  unfold set_world. cbn [world svc].
  destruct (files w !! _) as [data|]; [|by eexists].
  destruct (json_Unmarshal_detail data) as [detail|]; [|by eexists].
  intros [Hne Hlocal]. cbn.
  destruct (String.eqb (param "target") "") eqn:Htarget;
    [by apply String.eqb_eq in Htarget|].
  destruct (String.eqb (param "target") "local") eqn:Htarget';
    [by apply String.eqb_eq in Htarget'|].
  destruct (String.eqb (param "target") "aws"); by eexists.
Qed.

Lemma Deploy_refused_witness :
  ∃ msg,
    Deploy (rt := SampleRuntime.runtime true) ["opensourcer"; "deploy"; "wiki"]%string
      (SampleMore.flags "gcp") [] (SampleRuntime.deploy_ok "id-1" 10)
      SampleMore.catalog_state = Done (Err msg, SampleMore.catalog_state).
Proof.
  apply (Deploy_refused (rt := SampleRuntime.runtime true)
           ["opensourcer"; "deploy"; "wiki"]%string (SampleMore.flags "gcp") []
           (SampleRuntime.deploy_ok "id-1" 10) SampleMore.catalog_state).
  right. vm_compute. split; discriminate.
Defined.

(** X25.  [List] and short identifiers.  [List] changes nothing and
    returns a value when every record has an identifier of at least
    eight bytes, the empty store included; it panics, at the slice
    [d.ID[:8]], exactly when some record of the store has a shorter
    identifier. *)
Theorem List_outcome `{rt : GoRuntime} `{tx : GoText} (st : State) :
  (Exists short_id (deployments (svc st)) ∧ List st = Panicked) ∨
  (Forall (λ d, ¬ short_id d) (deployments (svc st)) ∧
   ∃ out, List st = Done (Ok out, st)).
Proof.
  unfold List. destruct (deployments (svc st)) as [|d rest] eqn:Hds.
  { right. split; [constructor|]. by eexists. }
  cbn [length Nat.eqb].
  match goal with
  | |- context [list_rows ?ds ?o] =>
      destruct (list_rows_outcome ds o) as [[Hex ->]|[Hall [out ->]]]
  end; [by left|right]. split; [done|by eexists].
Qed.

(** X26.  [Logs] reads only.  Whatever the slug, the store and the
    answer of the command, [Logs] returns with the service, the files,
    the directories and the random source as they were; the one thing it
    may do to the outside is run [docker compose logs --tail 100] in the
    directory of a record of the slug, and it does so only for a
    non-empty slug that is tracked. *)
Theorem Logs_read_only `{rt : GoRuntime} (answer : ExecResult) (software : string)
    (st : State) :
  ∃ r st',
    Logs answer software st = Done (r, st') ∧
    svc st' = svc st ∧
    files (world st') = files (world st) ∧
    dirs (world st') = dirs (world st) ∧
    entropy (world st') = entropy (world st) ∧
    (log (world st') = log (world st) ∨
     ∃ d, d ∈ deployments (svc st) ∧ ld_Software d = software ∧
          software ≠ ""%string ∧
          log (world st') =
            log (world st) ++
              [EvExec ["docker"; "compose"; "-f"; compose_path d; "logs"; "--tail"; "100"]%string
                 (ld_Directory d) []]).
Proof.
  unfold Logs. destruct (String.eqb software "") eqn:Hsoft.
  { eexists _, _. split; [reflexivity|]. repeat split; by left. }
  apply String.eqb_neq in Hsoft.
  unfold findDeployment, getDockerLogs, deref. unfold_M. cbn.
  destruct (list_find _ _) as [[i d]|] eqn:Hfind; cbn;
    [|eexists _, _; split; [reflexivity|]; repeat split; by left].
  apply list_find_Some in Hfind as (Hi & Hslug & _). rewrite Hi. cbn.
  assert (d ∈ deployments (svc st)) as Hin by (by eapply list_elem_of_lookup_2).
  destruct (exec_err answer);
    (eexists _, _; split; [reflexivity|]; repeat split; right; exists d; by repeat split).
Qed.

(** ** The lines of the environment *)

(** X27.  The lines written for an environment set.  Both
    [envVarsToSlice] and [buildEnvFile] make one line [KEY=value] for
    each entry of the set and nothing else: in every visiting order the
    slice has as many lines as the set has entries, its lines are those
    of the entries, and two orders give the same lines up to their
    order; the text of [.env] is these lines joined by a newline, with
    no newline after the last. *)
Theorem env_lines_any_order (seed1 seed2 : list nat) (envVars : gmap string string) :
  envVarsToSlice seed1 envVars ≡ₚ envVarsToSlice seed2 envVars ∧
  length (envVarsToSlice seed1 envVars) = size envVars ∧
  (∀ line, line ∈ envVarsToSlice seed1 envVars ↔
           ∃ k v, envVars !! k = Some v ∧ line = (k ++ "=" ++ v)%string) ∧
  buildEnvFile seed1 envVars = String.concat newline (envVarsToSlice seed1 envVars).
Proof.
  unfold envVarsToSlice, buildEnvFile. split; [|split; [|split; [|done]]].
  - by rewrite !go_range_perm.
  - rewrite length_fmap, (Permutation_length (go_range_perm _ _)).
    apply length_map_to_list.
  - intros line. rewrite list_elem_of_fmap. split.
    + intros ([k v] & -> & Hin). apply elem_of_go_range in Hin. by exists k, v.
    + intros (k & v & Hkv & ->). exists (k, v). split; [done|].
      by apply elem_of_go_range.
Qed.
